(** * Read_pubmed: the abstract fetcher and the word analyzer of
    [wenjianshaixuan.py], embedded and verified.

    The development follows the script top-down:
    - [PyStr]: the Python string primitives the script calls
      ([lower], [strip], [count], [in], [startswith], [split], and
      [re.split] for the one pattern the script uses);
    - [Soup]: the parsed document and the BeautifulSoup lookups;
    - [Analyzer]: [analyze_words_in_abstract];
    - [Fetcher]: [get_pubmed_abstract], in a state-and-exception monad over
      the external capabilities (user agent, HTTP GET, status check, parser);
    - [Driver]: the body of the "Analyze" button handler, as the sequence of
      streamlit calls it makes, the [text_area] widget with streamlit's
      refusal of a second identical widget.

    Characters are the code points below 256 (Rocq's [ascii]); a Python [str]
    is a list of them. *)

From Stdlib Require Import Ascii String DecimalString List Arith Bool Lia.
Import ListNotations.

Set Implicit Arguments.

(* ===================================================================== *)
(** ** Python strings *)
(* ===================================================================== *)

Module PyStr.

Definition str := list ascii.

(** String literals of the script. *)
Definition lit (s : string) : str := list_ascii_of_string s.

(** [str.isspace] on one character: TAB..CR, FS..US, SPACE, NEL and NBSP.
    This is also the class [\s] of the [re] module on [str] patterns. *)
Definition isspace (c : ascii) : bool :=
  let n := nat_of_ascii c in
  ((9 <=? n) && (n <=? 13)) || ((28 <=? n) && (n <=? 32))
  || (n =? 133) || (n =? 160).

(** [str.lower] on one character: A-Z, and the upper-case letters of the
    Latin-1 block (all of U+00C0..U+00DE but the multiplication sign). *)
Definition lower_char (c : ascii) : ascii :=
  let n := nat_of_ascii c in
  if ((65 <=? n) && (n <=? 90))
     || ((192 <=? n) && (n <=? 222) && negb (n =? 215))
  then ascii_of_nat (n + 32) else c.

(** [s.lower()]. On these code points it works character by character and
    keeps the length; outside them Python's [lower] can lengthen a string,
    so lengths are stated of the lower-cased strings themselves. *)
Definition lower (s : str) : str := map lower_char s.

Fixpoint lstrip (s : str) : str :=
  match s with
  | c :: s' => if isspace c then lstrip s' else s
  | [] => []
  end.

Definition rstrip (s : str) : str := rev (lstrip (rev s)).

(** [s.strip()] *)
Definition strip (s : str) : str := rstrip (lstrip s).

(** [s.startswith(p)] *)
Fixpoint startswith (p s : str) : bool :=
  match p, s with
  | [], _ => true
  | a :: p', b :: s' => Ascii.eqb a b && startswith p' s'
  | _ :: _, [] => false
  end.

(** [w in s] on two strings: [w] occurs in [s] at some offset. *)
Fixpoint contains (w s : str) : bool :=
  startswith w s ||
  match s with
  | [] => false
  | _ :: s' => contains w s'
  end.

(** [s.count(w)] for a non-empty [w]: the scan goes left to right; after a
    match it resumes behind the matched text ([skip] characters are still
    covered by the last match). *)
Fixpoint count_go (w : str) (skip : nat) (s : str) : nat :=
  match s with
  | [] => 0
  | _ :: s' =>
    match skip with
    | S k => count_go w k s'
    | O => if startswith w s then S (count_go w (length w - 1) s')
           else count_go w 0 s'
    end
  end.

(** [s.count(w)]; the empty string is counted once at every offset,
    [len(s) + 1] times. *)
Definition count (s w : str) : nat :=
  match w with
  | [] => S (length s)
  | _ :: _ => count_go w 0 s
  end.

(** [s.split(sep)] with a one-character separator. *)
Fixpoint split_go (sep : ascii) (acc : str) (s : str) : list str :=
  match s with
  | [] => [rev acc]
  | c :: s' =>
    if Ascii.eqb c sep then rev acc :: split_go sep [] s'
    else split_go sep (c :: acc) s'
  end.

Definition split (sep : ascii) (s : str) : list str := split_go sep [] s.

(** The character class [[.!?]] of the look-behind. *)
Definition is_end_punct (c : ascii) : bool :=
  Ascii.eqb c "."%char || Ascii.eqb c "!"%char || Ascii.eqb c "?"%char.

(** [(?<=[.!?])] at a position whose preceding character is [prev]
    ([None] at offset 0). *)
Definition lookbehind (prev : option ascii) : bool :=
  match prev with
  | Some c => is_end_punct c
  | None => false
  end.

(** [re.split(r'(?<=[.!?])\s+', s)]: the matcher walks over [s]; [acc] is the
    piece being collected (reversed), [prev] the character before the current
    offset, and [in_match] tells that a match of [\s+] is open, which then
    takes every further white-space character. A match starts at a white-space
    character that the look-behind accepts; the piece before it is emitted. *)
Fixpoint re_split_go (prev : option ascii) (in_match : bool) (acc : str)
    (s : str) : list str :=
  match s with
  | [] => [rev acc]
  | c :: s' =>
    if in_match && isspace c then re_split_go (Some c) true acc s'
    else if lookbehind prev && isspace c
         then rev acc :: re_split_go (Some c) true [] s'
         else re_split_go (Some c) false (c :: acc) s'
  end.

Definition re_split (s : str) : list str := re_split_go None false [] s.

(** Truth value of a string, and of a string that may be [None]. *)
Definition truthy (s : str) : bool :=
  match s with [] => false | _ :: _ => true end.

Definition truthy_opt (o : option str) : bool :=
  match o with Some s => truthy s | None => false end.

(** [str(n)] for a non-negative integer. *)
Definition str_of_nat (n : nat) : str :=
  lit (NilEmpty.string_of_uint (Nat.to_uint n)).

Definition str_eqb (a b : str) : bool :=
  if list_eq_dec ascii_dec a b then true else false.

End PyStr.

Import PyStr.

(* ===================================================================== *)
(** ** The parsed page *)
(* ===================================================================== *)

Module Soup.

(** What [BeautifulSoup(markup, 'html.parser')] builds: text nodes and tags.
    The builder splits the [class] attribute into its tokens and keeps every
    other attribute as one string, so a tag carries its class tokens
    ([classes], empty when the attribute is absent) and a dictionary of the
    other attributes. The soup object itself is the root tag. *)
#[warnings="-register-all"]
Inductive node : Type :=
| NavigableString (s : str)
| Tag (name : str) (classes : list str) (attrs : list (str * str))
      (contents : list node).

(** [tag.get_text()]: the text nodes below the tag, concatenated. *)
Fixpoint get_text (n : node) : str :=
  match n with
  | NavigableString s => s
  | Tag _ _ _ contents => flat_map get_text contents
  end.

(** The nodes below [n] in document order, as [find] and [find_all] visit
    them. *)
Fixpoint descendants (n : node) : list node :=
  match n with
  | NavigableString _ => []
  | Tag _ _ _ contents => flat_map (fun c => c :: descendants c) contents
  end.

Definition is_tag (nm : str) (n : node) : bool :=
  match n with
  | Tag name _ _ _ => str_eqb name nm
  | NavigableString _ => false
  end.

(** [tag.get('class', [])] *)
Definition get_class (n : node) : list str :=
  match n with
  | Tag _ classes _ _ => classes
  | NavigableString _ => []
  end.

(** [c in tag.get('class', [])], which is also how a [{'class': c}] filter
    matches: [c] is one of the class tokens. *)
Definition has_class (c : str) (n : node) : bool :=
  existsb (str_eqb c) (get_class n).

Fixpoint dict_get (k : str) (d : list (str * str)) : option str :=
  match d with
  | [] => None
  | (k', v) :: d' => if str_eqb k k' then Some v else dict_get k d'
  end.

(** [tag.get(k, default)] for an attribute other than [class]. *)
Definition get (k default : str) (n : node) : str :=
  match n with
  | Tag _ _ attrs _ =>
    match dict_get k attrs with Some v => v | None => default end
  | NavigableString _ => default
  end.

(** The filter [{k: v}] on an attribute other than [class]. *)
Definition attr_is (k v : str) (n : node) : bool :=
  match n with
  | Tag _ _ attrs _ =>
    match dict_get k attrs with Some v' => str_eqb v' v | None => false end
  | NavigableString _ => false
  end.

(** [soup.find_all(nm)] and [soup.find(nm, {...})]. *)
Definition find_all (nm : str) (soup : node) : list node :=
  filter (is_tag nm) (descendants soup).

Definition find (nm : str) (attrs : node -> bool) (soup : node)
    : option node :=
  List.find (fun n => is_tag nm n && attrs n) (descendants soup).

End Soup.

Import Soup.

(* ===================================================================== *)
(** ** analyze_words_in_abstract *)
(* ===================================================================== *)

Module Analyzer.

(** The value stored per word: [{'count': ..., 'sentences': ...}]. *)
Record entry : Type := Entry {
  entry_count : nat;
  entry_sentences : list str
}.

(** A Python [dict] with string keys: insertion-ordered, an assignment to a
    key that is present replaces the value in place. *)
Definition dict := list (str * entry).

Fixpoint dict_set (k : str) (v : entry) (d : dict) : dict :=
  match d with
  | [] => [(k, v)]
  | (k', v') :: d' =>
    if str_eqb k k' then (k', v) :: d' else (k', v') :: dict_set k v d'
  end.

Fixpoint dict_lookup (k : str) (d : dict) : option entry :=
  match d with
  | [] => None
  | (k', v) :: d' => if str_eqb k k' then Some v else dict_lookup k d'
  end.

(** The inner loop: the sentences whose lower-cased text contains [word],
    each appended stripped. *)
Fixpoint containing_sentences (word : str) (sentences : list str)
    : list str :=
  match sentences with
  | [] => []
  | sentence :: rest =>
    if contains word (lower sentence)
    then strip sentence :: containing_sentences word rest
    else containing_sentences word rest
  end.

(** One turn of the loop over [words_to_find]. *)
Definition analyze_word (abstract_lower : str) (sentences : list str)
    (results : dict) (word : str) : dict :=
  let word := lower word in
  let count := count abstract_lower word in
  dict_set word (Entry count (containing_sentences word sentences)) results.

Definition analyze_words_in_abstract (abstract : option str)
    (words_to_find : list str) : option dict :=
  match abstract with
  | None => None
  | Some abstract =>
    if negb (truthy abstract) then None
    else
      let abstract_lower := lower abstract in
      let sentences := re_split abstract in
      Some (fold_left (analyze_word abstract_lower sentences)
                      words_to_find [])
  end.

(** The entry that the loop stores for a lower-cased word. *)
Definition entry_for (abstract word : str) : entry :=
  Entry (count (lower abstract) word)
        (containing_sentences word (re_split abstract)).

End Analyzer.

Import Analyzer.

(* ===================================================================== *)
(** ** State and exceptions *)
(* ===================================================================== *)

Module Eff.

(** A computation over a state [S] that returns a value or raises; an
    exception is represented by its text, [str(e)]. State changes made before
    a [raise] stay. *)
Definition M (S A : Type) : Type := S -> (str + A) * S.

Definition ret {S A} (a : A) : M S A := fun s => (inr a, s).

Definition raise {S A} (e : str) : M S A := fun s => (inl e, s).

Definition bind {S A B} (c : M S A) (k : A -> M S B) : M S B :=
  fun s =>
    match c s with
    | (inr a, s') => k a s'
    | (inl e, s') => (inl e, s')
    end.

(** [try: body / except Exception as e: handler(e)] *)
Definition try_except {S A} (body : M S A) (handler : str -> M S A)
    : M S A :=
  fun s =>
    match body s with
    | (inr a, s') => (inr a, s')
    | (inl e, s') => handler e s'
    end.

(** The loop [for x in xs: body(x)]. *)
Fixpoint for_each {S A} (xs : list A) (body : A -> M S unit) : M S unit :=
  match xs with
  | [] => ret tt
  | x :: xs' => bind (body x) (fun _ => for_each xs' body)
  end.

End Eff.

Import Eff.

Declare Scope eff_scope.
Delimit Scope eff_scope with eff.
Notation "x <- c ;; k" := (bind c (fun x => k))
  (at level 61, c at next level, right associativity) : eff_scope.
Notation "c ;;; k" := (bind c (fun _ => k))
  (at level 61, right associativity) : eff_scope.

(* ===================================================================== *)
(** ** get_pubmed_abstract *)
(* ===================================================================== *)

Module Fetcher.

(** What the script takes from [fake_useragent], [requests] and [bs4]; each
    call may raise. [World] is whatever these calls read and change (the
    network, the random generator). *)
Record externals (World Response : Type) : Type := Externals {
  UserAgent_random : M World str;
  requests_get : str -> str -> M World Response;
  raise_for_status : Response -> M World unit;
  response_text : Response -> str;
  BeautifulSoup : str -> M World node
}.

(** The variable [abstract] of the function, with a ghost log of the
    extraction methods that were run. *)
Record progress : Type := Progress {
  abstract : option str;
  attempted : list nat
}.

(** Run method [k], which updates [abstract]. *)
Definition attempt (k : nat) (method : option str -> option str)
    (st : progress) : progress :=
  Progress (method (abstract st)) (attempted st ++ [k]).

(** [if not abstract: ...] *)
Definition if_not_abstract (f : progress -> progress) (st : progress)
    : progress :=
  if negb (truthy_opt (abstract st)) then f st else st.

(** Method 1: the [div] of class [abstract]. *)
Definition method1 (soup : node) (abstract : option str) : option str :=
  match find (lit "div") (has_class (lit "abstract")) soup with
  | Some abstract_section => Some (strip (get_text abstract_section))
  | None => abstract
  end.

(** Methods 2 and 3: a [meta] element with the given [name]. *)
Definition method_meta (name : str) (soup : node) (abstract : option str)
    : option str :=
  match find (lit "meta") (attr_is (lit "name") name) soup with
  | Some meta => Some (strip (get (lit "content") [] meta))
  | None => abstract
  end.

Definition method2 := method_meta (lit "description").
Definition method3 := method_meta (lit "citation_abstract").

(** The test of method 4 on one paragraph with stripped text [text]. *)
Definition looks_like_abstract (p : node) (text : str) : bool :=
  (100 <? length text)
  && (has_class (lit "abstract") p
      || contains (lit "abstract") (get (lit "id") [] p)).

(** Method 4: the loop over [soup.find_all('p')], left at the first hit. *)
Fixpoint method4_loop (ps : list node) (abstract : option str)
    : option str :=
  match ps with
  | [] => abstract
  | p :: ps' =>
    let text := strip (get_text p) in
    if looks_like_abstract p text then Some text
    else method4_loop ps' abstract
  end.

Definition method4 (soup : node) (abstract : option str) : option str :=
  method4_loop (find_all (lit "p") soup) abstract.

(** The extraction part of the [try] block, from [abstract = None] to
    [return abstract]. *)
Definition up_to_method3 (soup : node) : progress :=
  let st := Progress None [] in
  let st := attempt 1 (method1 soup) st in
  let st := if_not_abstract (attempt 2 (method2 soup)) st in
  let st := if_not_abstract (attempt 3 (method3 soup)) st in
  st.

Definition extract (soup : node) : progress :=
  if_not_abstract (attempt 4 (method4 soup)) (up_to_method3 soup).

Definition error_prefix : str := lit "Error fetching PubMed article: ".

Definition article_url (pubmed_id : str) : str :=
  lit "https://pubmed.ncbi.nlm.nih.gov/" ++ pubmed_id ++ lit "/".

Section WithExternals.

Variables World Response : Type.
Variable ext : externals World Response.

Local Open Scope eff_scope.

Definition get_random_user_agent : M World str := UserAgent_random ext.

(** The [try] block. *)
Definition fetch_body (pubmed_id : str) : M World (option str) :=
  user_agent <- get_random_user_agent ;;
  response <- requests_get ext (article_url pubmed_id) user_agent ;;
  raise_for_status ext response ;;;
  soup <- BeautifulSoup ext (response_text ext response) ;;
  ret (abstract (extract soup)).

(** The result is [None], the abstract, or the error text. *)
Definition get_pubmed_abstract (pubmed_id : str) : M World (option str) :=
  try_except (fetch_body pubmed_id)
             (fun e => ret (Some (error_prefix ++ e))).

End WithExternals.

End Fetcher.

Import Fetcher.

(* ===================================================================== *)
(** ** The "Analyze" button *)
(* ===================================================================== *)

Module Driver.

(** The streamlit calls of the handler, in the order they are made. *)
Inductive st_call : Type :=
| St_subheader (body : str)
| St_text_area (label value : str) (height : nat)
| St_markdown (body : str)
| St_warning (body : str)
| St_error (body : str).

(** The state of a run: the outside world and what was shown so far. *)
Record session (World : Type) : Type := Session {
  world : World;
  screen : list st_call
}.

Definition newline : str := ["010"%char].

(** [[x.strip() for x in pieces if x.strip()]] *)
Definition stripped_nonempty (pieces : list str) : list str :=
  map strip (filter (fun x => truthy (strip x)) pieces).

Definition parse_pubmed_ids (pubmed_ids_input : str) : list str :=
  stripped_nonempty (split "010"%char (strip pubmed_ids_input)).

Definition parse_words (words_input : str) : list str :=
  stripped_nonempty (split ","%char words_input).

(** [abstract and not abstract.startswith("Error")] *)
Definition is_success (abstract : option str) : bool :=
  match abstract with
  | Some a => truthy a && negb (startswith (lit "Error") a)
  | None => false
  end.

(** [abstract if abstract else ''], and [abstract] itself where it is known to
    be a string. *)
Definition text_of (abstract : option str) : str :=
  match abstract with Some a => a | None => [] end.

(** A [text_area] is a widget. One created without a [key] is identified by
    its parameters, here the label, the value and the height; [c] is that
    widget. *)
Definition same_text_area (label value : str) (height : nat) (c : st_call)
    : bool :=
  match c with
  | St_text_area l v h => str_eqb l label && str_eqb v value && (h =? height)
  | _ => false
  end.

(** The widget is on the page already. *)
Definition text_area_shown (label value : str) (height : nat)
    (page : list st_call) : bool :=
  existsb (same_text_area label value height) page.

(** The text of the exception streamlit raises for a second widget with the
    identity of one created earlier in the run. *)
Definition duplicate_element_id : str :=
  lit "There are multiple `text_area` elements with the same auto-generated ID.".

Section WithExternals.

Variables World Response : Type.
Variable ext : externals World Response.

Local Open Scope eff_scope.

Definition lift {A} (c : M World A) : M (session World) A :=
  fun s =>
    let (r, w) := c (world s) in (r, Session w (screen s)).

(** A streamlit call that creates no widget ([subheader], [markdown],
    [warning], [error]) appends to the page. *)
Definition emit (c : st_call) : M (session World) unit :=
  fun s => (inr tt, Session (world s) (screen s ++ [c])).

(** [st.text_area(label, value, height=height)], without a [key]: it raises
    when the same widget is on the page already, and appends otherwise. *)
Definition text_area (label value : str) (height : nat)
    : M (session World) unit :=
  fun s =>
    if text_area_shown label value height (screen s)
    then (inl duplicate_element_id, s)
    else (inr tt,
          Session (world s) (screen s ++ [St_text_area label value height])).

(** [for i, sentence in enumerate(sentences, i): st.markdown(...)] *)
Fixpoint show_sentences (i : nat) (sentences : list str)
    : M (session World) unit :=
  match sentences with
  | [] => ret tt
  | sentence :: rest =>
    emit (St_markdown (str_of_nat i ++ lit ". " ++ sentence)) ;;;
    show_sentences (S i) rest
  end.

Definition show_word (item : str * entry) : M (session World) unit :=
  let (word, data) := item in
  emit (St_markdown (lit "**Word:** `" ++ word ++ lit "`  " ++ newline
                     ++ lit "Count: " ++ str_of_nat (entry_count data))) ;;;
  match entry_sentences data with
  | _ :: _ =>
    emit (St_markdown (lit "Sentences containing the word:")) ;;;
    show_sentences 1 (entry_sentences data)
  | [] => emit (St_markdown (lit "No sentences found with this word."))
  end.

(** The body of [for pubmed_id in pubmed_ids]. *)
Definition show_article (words_to_find : list str) (pubmed_id : str)
    : M (session World) unit :=
  emit (St_subheader (lit "PubMed ID: " ++ pubmed_id)) ;;;
  abstract <- lift (get_pubmed_abstract ext pubmed_id) ;;
  if is_success abstract then
    text_area (lit "Abstract") (text_of abstract) 200 ;;;
    match analyze_words_in_abstract abstract words_to_find with
    | Some ((_ :: _) as results) => for_each results show_word
    | _ => emit (St_warning (lit "Could not analyze words in abstract."))
    end
  else
    emit (St_error (lit "Could not find the abstract for PubMed ID "
                    ++ pubmed_id ++ lit "." ++ newline ++ text_of abstract)).

(** [if st.button("Analyze"): ...] *)
Definition on_analyze (pubmed_ids_input words_input : str)
    : M (session World) unit :=
  let pubmed_ids := parse_pubmed_ids pubmed_ids_input in
  let words_to_find := parse_words words_input in
  for_each pubmed_ids (show_article words_to_find).

End WithExternals.

(** What the handler adds to the page when no call raises, read off the
    calls above: for the numbered sentences, for one word, and for one
    article with the fetch result [abstract]. *)
Fixpoint sentence_calls (i : nat) (sentences : list str) : list st_call :=
  match sentences with
  | [] => []
  | sentence :: rest =>
    St_markdown (str_of_nat i ++ lit ". " ++ sentence)
    :: sentence_calls (S i) rest
  end.

Definition word_calls (item : str * entry) : list st_call :=
  let (word, data) := item in
  St_markdown (lit "**Word:** `" ++ word ++ lit "`  " ++ newline
               ++ lit "Count: " ++ str_of_nat (entry_count data))
  :: match entry_sentences data with
     | _ :: _ =>
       St_markdown (lit "Sentences containing the word:")
       :: sentence_calls 1 (entry_sentences data)
     | [] => [St_markdown (lit "No sentences found with this word.")]
     end.

Definition analysis_calls (results : option dict) : list st_call :=
  match results with
  | Some ((_ :: _) as results) => flat_map word_calls results
  | _ => [St_warning (lit "Could not analyze words in abstract.")]
  end.

Definition article_calls (words_to_find : list str) (pubmed_id : str)
    (abstract : option str) : list st_call :=
  St_subheader (lit "PubMed ID: " ++ pubmed_id)
  :: if is_success abstract then
       St_text_area (lit "Abstract") (text_of abstract) 200
       :: analysis_calls (analyze_words_in_abstract abstract words_to_find)
     else
       [St_error (lit "Could not find the abstract for PubMed ID "
                  ++ pubmed_id ++ lit "." ++ newline ++ text_of abstract)].

(** The section headers on a page, and the calls that close a block's first
    outcome: the abstract box or the error notice. *)
Definition subheaders (page : list st_call) : list str :=
  flat_map (fun c => match c with St_subheader b => [b] | _ => [] end) page.

Definition is_subheader (c : st_call) : bool :=
  match c with St_subheader _ => true | _ => false end.

Definition is_error (c : st_call) : bool :=
  match c with St_error _ => true | _ => false end.

Definition is_text_area (c : st_call) : bool :=
  match c with St_text_area _ _ _ => true | _ => false end.

(** The shape of the block of one identifier: its header, no other header,
    and exactly one of the abstract box and the error notice. *)
Definition block_of (pubmed_id : str) (block : list st_call) : Prop :=
  exists rest,
    block = St_subheader (lit "PubMed ID: " ++ pubmed_id) :: rest
    /\ existsb is_subheader rest = false
    /\ length (filter (fun c => is_text_area c || is_error c) rest) = 1.

End Driver.

Import Driver.

(* ===================================================================== *)
(** ** A stand-in for the network and the parser *)
(* ===================================================================== *)

Module Stub.

(** A response as the script uses it: the status and the body. *)
Record response : Type := Response {
  status_code : nat;
  text : str
}.

(** A fixed site and a fixed parser. The world is the log of the URLs that
    were requested. A URL the site does not serve is a connection error, a
    status from 400 to 599 makes [raise_for_status] raise, and markup the
    parser does not know makes it raise. *)
Definition stub (site : str -> option response) (parse : str -> option node)
    : externals (list str) response :=
  Externals
    (ret (lit "stub-agent/1.0"))
    (fun url _ log =>
       match site url with
       | Some r => (inr r, log ++ [url])
       | None => (inl (lit "Connection refused"), log ++ [url])
       end)
    (fun r =>
       if (400 <=? status_code r) && (status_code r <? 600)
       then raise (str_of_nat (status_code r) ++ lit " Error for url")
       else ret tt)
    text
    (fun markup =>
       match parse markup with
       | Some soup => ret soup
       | None => raise (lit "cannot parse markup")
       end).

(** A site with one article, 12345, whose page parses to [soup]. *)
Definition one_article (soup : node) : externals (list str) response :=
  stub (fun url =>
          if str_eqb url (lit "https://pubmed.ncbi.nlm.nih.gov/12345/")
          then Some (Response 200 (lit "<html>"))
          else Some (Response 404 (lit "")))
       (fun markup => if str_eqb markup (lit "<html>") then Some soup
                      else None).

Definition page (contents : list node) : node :=
  Tag (lit "[document]") [] [] contents.

(** A page with an abstract section and a [citation_abstract] meta tag. *)
Definition page_with_both : node :=
  page [Tag (lit "meta") []
            [(lit "name", lit "citation_abstract");
             (lit "content", lit "From the meta tag.")] [];
        Tag (lit "div") [lit "abstract"; lit "wide"] []
            [Tag (lit "p") [] [] [NavigableString (lit " From the section. ")]]].

(** A page whose only candidate is a paragraph of class [abstract-text] with
    101 characters of text. *)
Definition long_text : str := repeat "a"%char 101.

Definition page_with_abstract_text_class : node :=
  page [Tag (lit "p") [lit "abstract-text"] [] [NavigableString long_text]].

(** A page whose only candidate is a paragraph with id [main-abstract]. *)
Definition page_with_abstract_id : node :=
  page [Tag (lit "p") [] [] [NavigableString (lit "Too short.")];
        Tag (lit "p") [lit "lead"] [(lit "id", lit "main-abstract")]
            [NavigableString (lit "  " ++ long_text ++ lit " ")]].

(** A page whose abstract begins with the word "Error". *)
Definition page_error_rates : node :=
  page [Tag (lit "div") [lit "abstract"] []
            [NavigableString (lit "Error rates fell by half.")]].

End Stub.

Import Stub.

(* ===================================================================== *)
(** ** What the specification says, in its own words *)
(* ===================================================================== *)

Module Spec.

(** [w] occurs in [s] at offset [i]. *)
Definition occurs_at (w s : str) (i : nat) : Prop :=
  i <= length s /\ startswith w (skipn i s) = true.

(** The same with offsets counted from the start of a longer text, of which
    [s] is what is left behind the first [off] characters. *)
Definition occurs_from (w s : str) (off p : nat) : Prop :=
  off <= p /\ occurs_at w s (p - off).

(** Offsets in increasing order, none below [lo], such that occurrences of
    [w] at two of them do not overlap (and are not the same occurrence). *)
Fixpoint spaced (w : str) (lo : nat) (ps : list nat) : Prop :=
  match ps with
  | [] => True
  | p :: ps' => lo <= p /\ spaced w (p + Nat.max 1 (length w)) ps'
  end.

Definition non_overlapping_occurrences (w s : str) (ps : list nat) : Prop :=
  spaced w 0 ps /\ Forall (occurs_at w s) ps.

(** "The number of non-overlapping occurrences of [w] in [s]": some family
    of non-overlapping occurrences has [n] members and none has more. *)
Definition number_of_occurrences (w s : str) (n : nat) : Prop :=
  (exists ps, non_overlapping_occurrences w s ps /\ length ps = n)
  /\ (forall ps, non_overlapping_occurrences w s ps -> length ps <= n).

(** A string with no white space in front. *)
Definition tight_front (s : str) : Prop :=
  match s with [] => True | c :: _ => isspace c = false end.

(** The last character of a string. *)
Fixpoint last_char (s : str) : option ascii :=
  match s with
  | [] => None
  | c :: s' => match s' with [] => Some c | _ :: _ => last_char s' end
  end.

(** A sentence end followed by white space somewhere inside [p]. *)
Fixpoint has_break (p : str) : bool :=
  match p with
  | c :: t =>
    match t with
    | d :: _ => (is_end_punct c && isspace d) || has_break t
    | [] => false
    end
  | [] => false
  end.

(** The sentence rule: the text is cut after each of [.], [!], [?] that white
    space follows; the punctuation stays with the sentence before it, the
    whole white space after it is dropped, and nothing else is cut. *)
Inductive sentences_of : str -> list str -> Prop :=
| sentences_last p :
    has_break p = false -> sentences_of p [p]
| sentences_break p sep rest ps :
    has_break p = false ->
    lookbehind (last_char p) = true ->
    sep <> [] ->
    forallb isspace sep = true ->
    match rest with [] => True | c :: _ => isspace c = false end ->
    sentences_of rest ps ->
    sentences_of (p ++ sep ++ rest) (p :: ps).

(** Claim C3 as the specification words it: every term is found under its
    trimmed, lower-cased text. *)
Definition keyed_by_trimmed_term (abstract : str) (terms : list str) : Prop :=
  forall t, In t terms ->
    exists d e, analyze_words_in_abstract (Some abstract) terms = Some d
                /\ dict_lookup (lower (strip t)) d = Some e.

(** Method 4 as the specification words it: a paragraph qualifies when a
    class or the id contains the substring "abstract" and the trimmed text is
    longer than 100 characters. *)
Definition spec_paragraph_qualifies (p : node) : bool :=
  (100 <? length (strip (get_text p)))
  && (existsb (contains (lit "abstract")) (get_class p)
      || contains (lit "abstract") (get (lit "id") [] p)).

(** Claim C2 as the specification words it: once methods 1 to 3 have found
    nothing, the result is the trimmed text of the first paragraph that
    qualifies in the sense above. *)
Definition spec_method4 (soup : node) : Prop :=
  truthy_opt (abstract (up_to_method3 soup)) = false ->
  forall p,
    List.find spec_paragraph_qualifies (find_all (lit "p") soup) = Some p ->
    abstract (extract soup) = Some (strip (get_text p)).

End Spec.

Import Spec.

Unset Implicit Arguments.

(* ===================================================================== *)
(** ** Notions used to state further properties of the code *)
(* ===================================================================== *)

Module Notions.

(** A string without any white-space character. *)
Definition no_space (w : str) : bool :=
  forallb (fun c => negb (isspace c)) w.

(** A string with its white-space characters taken out. *)
Definition squeeze (s : str) : str :=
  filter (fun c => negb (isspace c)) s.

(** The keys of a result, in the order of the dictionary. *)
Definition keys (d : dict) : list str := map fst d.

(** The distinct members of a list, each at the place of its first
    occurrence. *)
Definition first_occurrences (ks : list str) : list str :=
  rev (nodup (list_eq_dec ascii_dec) (rev ks)).

(** An entry, and a result, with the sentences lower-cased. *)
Definition lower_sentences (e : entry) : entry :=
  Entry (entry_count e) (map lower (entry_sentences e)).

Definition lower_results (d : dict) : dict :=
  map (fun item => (fst item, lower_sentences (snd item))) d.

(** The element the first three methods look for. *)
Definition abstract_section (soup : node) : option node :=
  find (lit "div") (has_class (lit "abstract")) soup.

Definition meta_named (name : str) (soup : node) : option node :=
  find (lit "meta") (attr_is (lit "name") name) soup.

(** The paragraph method 4 takes. *)
Definition abstract_paragraph (soup : node) : option node :=
  List.find (fun p => looks_like_abstract p (strip (get_text p)))
            (find_all (lit "p") soup).

(** What the extraction keeps true of [abstract]: it is absent or trimmed. *)
Definition trimmed_opt (o : option str) : Prop :=
  forall a, o = Some a -> strip a = a.

End Notions.

Import Notions.

(* ===================================================================== *)
(** ** The definitions at work *)
(* ===================================================================== *)

Example lower_example :
  lower (lit "CANCER is Studied.") = lit "cancer is studied.".
Proof. reflexivity. Qed.

Example strip_example : strip (lit "  a b. ") = lit "a b.".
Proof. reflexivity. Qed.

Example count_example : count (lit "aaaaa") (lit "aa") = 2.
Proof. reflexivity. Qed.

Example count_empty_example : count (lit "abc") (lit "") = 4.
Proof. reflexivity. Qed.

Example re_split_example :
  re_split (lit "See Fig. 2 now!  Yes?No. ")
  = [lit "See Fig."; lit "2 now!"; lit "Yes?No."; lit ""].
Proof. reflexivity. Qed.

Example split_example :
  split ","%char (lit "a,,b ") = [lit "a"; lit ""; lit "b "].
Proof. reflexivity. Qed.

Example parse_words_example :
  parse_words (lit " Cancer , ,gene  therapy,") 
  = [lit "Cancer"; lit "gene  therapy"].
Proof. reflexivity. Qed.

Example analyze_case_example :
  analyze_words_in_abstract (Some (lit "CANCER is studied.")) [lit "cancer"]
  = Some [(lit "cancer", Entry 1 [lit "CANCER is studied."])].
Proof. reflexivity. Qed.

Example analyze_duplicate_example :
  analyze_words_in_abstract (Some (lit "A b. B a."))
                            [lit "a"; lit "B"; lit "A"]
  = Some [(lit "a", Entry 2 [lit "A b."; lit "B a."]);
          (lit "b", Entry 2 [lit "A b."; lit "B a."])].
Proof. reflexivity. Qed.

Example fetch_example :
  get_pubmed_abstract (one_article page_with_both) (lit "12345") []
  = (inr (Some (lit "From the section.")), [article_url (lit "12345")]).
Proof. reflexivity. Qed.

Example on_analyze_example :
  subheaders
    (screen
       (snd (on_analyze (one_article page_with_both)
                        (lit "7" ++ newline ++ lit " 12345 " ++ newline)
                        (lit "section") (Session [] []))))
  = [lit "PubMed ID: 7"; lit "PubMed ID: 12345"].
Proof. reflexivity. Qed.

(* ===================================================================== *)
(** ** Facts about the string primitives *)
(* ===================================================================== *)

Lemma str_eqb_eq (a b : str) : str_eqb a b = true <-> a = b.
Proof.
  unfold str_eqb. destruct (list_eq_dec ascii_dec a b); split; congruence.
Qed.

Lemma str_eqb_refl (a : str) : str_eqb a a = true.
Proof. now apply str_eqb_eq. Qed.

Lemma str_eqb_neq (a b : str) : str_eqb a b = false <-> a <> b.
Proof.
  unfold str_eqb. destruct (list_eq_dec ascii_dec a b); split; congruence.
Qed.

Lemma startswith_app (w r : str) : startswith w (w ++ r) = true.
Proof.
  induction w as [|a w IH]; simpl; [reflexivity|].
  now rewrite Ascii.eqb_refl, IH.
Qed.

Lemma startswith_inv (w s : str) :
  startswith w s = true -> exists r, s = w ++ r.
Proof.
  revert s. induction w as [|a w IH]; intros s H.
  - now exists s.
  - destruct s as [|b s]; simpl in H; [discriminate|].
    apply andb_prop in H. destruct H as [Hab H].
    apply Ascii.eqb_eq in Hab. subst b.
    destruct (IH _ H) as [r ->]. now exists r.
Qed.

Lemma contains_startswith (w s : str) :
  startswith w s = true -> contains w s = true.
Proof. intros H. destruct s; simpl; now rewrite H. Qed.

Lemma contains_intro (w l r : str) : contains w (l ++ w ++ r) = true.
Proof.
  induction l as [|c l IH].
  - cbn [app]. apply contains_startswith, startswith_app.
  - change (contains w ((c :: l) ++ w ++ r))
      with (startswith w ((c :: l) ++ w ++ r) || contains w (l ++ w ++ r)).
    rewrite IH. apply orb_true_r.
Qed.

Lemma contains_inv (w s : str) :
  contains w s = true -> exists l r, s = l ++ w ++ r.
Proof.
  induction s as [|c s IH]; simpl; intros H.
  - rewrite orb_false_r in H. destruct (startswith_inv _ _ H) as [r Hr].
    now exists [], r.
  - apply orb_prop in H. destruct H as [H|H].
    + destruct (startswith_inv _ _ H) as [r Hr]. now exists [], r.
    + destruct (IH H) as (l & r & ->). now exists (c :: l), r.
Qed.

Lemma lower_app (a b : str) : lower (a ++ b) = lower a ++ lower b.
Proof. apply map_app. Qed.

(** A term found in a part of the text is found in the text. *)
Lemma contains_lower_part (w l p r : str) :
  contains w (lower p) = true -> contains w (lower (l ++ p ++ r)) = true.
Proof.
  intros H. destruct (contains_inv _ _ H) as (l' & r' & E).
  rewrite !lower_app, E, <- !app_assoc, app_assoc.
  apply contains_intro.
Qed.

(* ===================================================================== *)
(** ** [str.count] counts a largest family of non-overlapping occurrences *)
(* ===================================================================== *)

Lemma spaced_weaken (w : str) (lo lo' : nat) (ps : list nat) :
  lo' <= lo -> spaced w lo ps -> spaced w lo' ps.
Proof.
  destruct ps as [|p ps]; simpl; [trivial|].
  intros Hle [Hp Hs]. split; [lia | exact Hs].
Qed.

Lemma spaced_lower_bound (w : str) (lo : nat) (ps : list nat) :
  spaced w lo ps -> Forall (fun p => lo <= p) ps.
Proof.
  revert lo. induction ps as [|p ps IH]; intros lo H; constructor.
  - apply H.
  - destruct H as [Hp Hs]. apply IH.
    apply spaced_weaken with (lo := p + Nat.max 1 (length w)); [lia|exact Hs].
Qed.

Lemma occurs_from_tail (w : str) (c : ascii) (s : str) (off p : nat) :
  S off <= p -> occurs_from w (c :: s) off p -> occurs_from w s (S off) p.
Proof.
  intros Hp (_ & Hlen & Hst). split; [exact Hp|].
  replace (p - off) with (S (p - S off)) in * by lia.
  simpl in *. split; [lia | exact Hst].
Qed.

Lemma occurs_from_cons (w : str) (c : ascii) (s : str) (off p : nat) :
  occurs_from w s (S off) p -> occurs_from w (c :: s) off p.
Proof.
  intros (Hp & Hlen & Hst). split; [lia|].
  replace (p - off) with (S (p - S off)) by lia.
  split; [simpl; lia | exact Hst].
Qed.

Section CountNonEmpty.

Variable w : str.
Hypothesis w_nonempty : w <> [].

Lemma width_pos : 1 <= length w.
Proof. destruct w; [congruence | simpl; lia]. Qed.

Lemma no_occurrence_in_empty (off p : nat) : ~ occurs_from w [] off p.
Proof.
  intros (_ & _ & H). destruct w; [congruence|].
  destruct (p - off); discriminate H.
Qed.

(** No family of non-overlapping occurrences beats the scan. *)
Lemma count_go_upper (s : str) :
  forall off skip ps,
    spaced w (off + skip) ps ->
    Forall (occurs_from w s off) ps ->
    length ps <= count_go w skip s.
Proof.
  induction s as [|c s IH]; intros off skip ps Hsp Hocc.
  - destruct ps as [|p ps]; [simpl; lia|].
    inversion Hocc; subst. now exfalso; eapply no_occurrence_in_empty; eauto.
  - assert (Hlo := spaced_lower_bound _ _ _ Hsp).
    simpl. destruct skip as [|k].
    + destruct (startswith w (c :: s)) eqn:Hst.
      * destruct ps as [|p ps]; [simpl; lia|].
        simpl. apply le_n_S.
        destruct Hsp as [Hp Hsp]. inversion Hocc as [|? ? _ Hocc']; subst.
        assert (Hlo' := spaced_lower_bound _ _ _ Hsp).
        apply (IH (S off)).
        -- apply spaced_weaken with (lo := p + Nat.max 1 (length w));
             [lia | exact Hsp].
        -- rewrite Forall_forall in *. intros q Hq.
           apply occurs_from_tail with (c := c); [specialize (Hlo' q Hq); lia|].
           now apply Hocc'.
      * apply (IH (S off)).
        -- destruct ps as [|p ps]; [exact I|].
           destruct Hsp as [Hp Hsp]. split; [|exact Hsp].
           inversion Hocc as [|? ? Hp0 _]; subst.
           destruct (Nat.eq_dec p off) as [->|]; [|lia].
           destruct Hp0 as (_ & _ & H0). rewrite Nat.sub_diag in H0.
           simpl skipn in H0. congruence.
        -- rewrite Forall_forall in *. intros q Hq.
           apply occurs_from_tail with (c := c); [|now apply Hocc].
           specialize (Hlo q Hq).
           destruct (Nat.eq_dec q off) as [->|]; [|lia].
           destruct (Hocc off Hq) as (_ & _ & H0). rewrite Nat.sub_diag in H0.
           simpl skipn in H0. congruence.
    + apply (IH (S off)).
      * apply spaced_weaken with (lo := off + S k); [lia | exact Hsp].
      * rewrite Forall_forall in *. intros q Hq.
        apply occurs_from_tail with (c := c); [specialize (Hlo q Hq); lia|].
        now apply Hocc.
Qed.

(** The scan itself finds such a family. *)
Lemma count_go_attained (s : str) :
  forall off skip,
    exists ps,
      length ps = count_go w skip s
      /\ spaced w (off + skip) ps
      /\ Forall (occurs_from w s off) ps.
Proof.
  induction s as [|c s IH]; intros off skip.
  - exists []. simpl. auto.
  - simpl. destruct skip as [|k].
    + destruct (startswith w (c :: s)) eqn:Hst.
      * destruct (IH (S off) (length w - 1)) as (ps & Hlen & Hsp & Hocc).
        exists (off :: ps). pose proof width_pos as Hw.
        split; [simpl; now rewrite Hlen|]. split; [split|].
        -- lia.
        -- apply spaced_weaken with (lo := S off + (length w - 1));
             [lia | exact Hsp].
        -- constructor.
           ++ split; [lia|]. rewrite Nat.sub_diag. split; [lia|exact Hst].
           ++ eapply Forall_impl; [|exact Hocc].
              intros q. apply occurs_from_cons.
      * destruct (IH (S off) 0) as (ps & Hlen & Hsp & Hocc).
        exists ps. repeat split; [exact Hlen | |].
        -- apply spaced_weaken with (lo := S off + 0); [lia | exact Hsp].
        -- eapply Forall_impl; [|exact Hocc]. intros q. apply occurs_from_cons.
    + destruct (IH (S off) k) as (ps & Hlen & Hsp & Hocc).
      exists ps. repeat split; [exact Hlen | |].
      * apply spaced_weaken with (lo := S off + k); [lia | exact Hsp].
      * eapply Forall_impl; [|exact Hocc]. intros q. apply occurs_from_cons.
Qed.

End CountNonEmpty.

Lemma occurs_from_zero (w s : str) (p : nat) :
  occurs_from w s 0 p <-> occurs_at w s p.
Proof.
  unfold occurs_from. rewrite Nat.sub_0_r. split; [tauto | split; [lia|tauto]].
Qed.

(** The empty string: one occurrence at each of the [len(s) + 1] offsets. *)
Lemma spaced_seq (w : str) (lo n : nat) :
  w = [] -> spaced w lo (seq lo n).
Proof.
  intros ->. revert lo. induction n as [|n IH]; intros lo; simpl; [trivial|].
  split; [lia|]. replace (lo + 1) with (S lo) by lia. apply IH.
Qed.

Lemma spaced_bounded (w : str) (hi : nat) (ps : list nat) :
  forall lo,
    spaced w lo ps -> Forall (fun p => p <= hi) ps ->
    length ps <= S hi - lo.
Proof.
  induction ps as [|p ps IH]; intros lo Hsp Hhi; [simpl; lia|].
  destruct Hsp as [Hp Hsp]. inversion Hhi; subst.
  specialize (IH _ Hsp H2). simpl length. lia.
Qed.

Lemma count_is_number_of_occurrences (s w : str) :
  number_of_occurrences w s (count s w).
Proof.
  destruct w as [|a w].
  - split.
    + exists (seq 0 (S (length s))). split; [split|].
      * now apply spaced_seq.
      * apply Forall_forall. intros p Hp. apply in_seq in Hp.
        split; [lia | reflexivity].
      * apply length_seq.
    + intros ps [Hsp Hocc]. simpl.
      assert (H : length ps <= S (length s) - 0); [|lia].
      apply spaced_bounded with (w := @nil ascii); [exact Hsp|].
      eapply Forall_impl; [|exact Hocc]. now intros p [Hp _].
  - assert (Hne : a :: w <> []) by discriminate.
    split.
    + destruct (count_go_attained (a :: w) Hne s 0 0) as (ps & Hlen & Hsp & Hocc).
      exists ps. split; [split|]; [exact Hsp | | exact Hlen].
      eapply Forall_impl; [|exact Hocc]. intros p. apply occurs_from_zero.
    + intros ps [Hsp Hocc].
      apply count_go_upper with (off := 0); [exact Hne | exact Hsp|].
      eapply Forall_impl; [|exact Hocc]. intros p. apply occurs_from_zero.
Qed.

(* ===================================================================== *)
(** ** [re.split] cuts the text by the sentence rule *)
(* ===================================================================== *)

Lemma last_char_snoc (s : str) (c : ascii) : last_char (s ++ [c]) = Some c.
Proof.
  induction s as [|a s IH]; [reflexivity|].
  simpl. destruct (s ++ [c]) eqn:E; [|exact IH].
  destruct s; discriminate E.
Qed.

Lemma last_char_rev (acc : str) : last_char (rev acc) = hd_error acc.
Proof. destruct acc as [|c acc]; [reflexivity|]. apply last_char_snoc. Qed.

Lemma last_char_app (s t : str) :
  t <> [] -> last_char (s ++ t) = last_char t.
Proof.
  intros Ht. induction s as [|a s IH]; [reflexivity|].
  simpl. destruct (s ++ t) eqn:E; [|exact IH].
  destruct s, t; try discriminate E. congruence.
Qed.

Lemma has_break_snoc (p : str) (c : ascii) :
  has_break (p ++ [c])
  = has_break p || (lookbehind (last_char p) && isspace c).
Proof.
  induction p as [|a p IH]; [reflexivity|].
  destruct p as [|b p].
  - simpl. now rewrite orb_false_r.
  - change (has_break ((a :: b :: p) ++ [c]))
      with ((is_end_punct a && isspace b) || has_break ((b :: p) ++ [c])).
    rewrite IH.
    change (has_break (a :: b :: p))
      with ((is_end_punct a && isspace b) || has_break (b :: p)).
    change (last_char (a :: b :: p)) with (last_char (b :: p)).
    now rewrite orb_assoc.
Qed.

Lemma end_punct_not_space (c : ascii) :
  is_end_punct c = true -> isspace c = false.
Proof.
  unfold is_end_punct. intros H.
  repeat (apply orb_prop in H; destruct H as [H|H]);
    apply Ascii.eqb_eq in H; subst c; reflexivity.
Qed.

(** Scanning and in-match states of the matcher, together. *)
Lemma re_split_go_sound (s : str) :
  (forall acc,
      has_break (rev acc) = false ->
      sentences_of (rev acc ++ s)
                   (re_split_go (hd_error acc) false acc s))
  /\ (forall w,
         isspace w = true ->
         exists sep rest,
           s = sep ++ rest
           /\ forallb isspace sep = true
           /\ match rest with [] => True | c :: _ => isspace c = false end
           /\ sentences_of rest (re_split_go (Some w) true [] s)).
Proof.
  induction s as [|c s [IHscan IHmatch]]; split.
  - intros acc Hacc. rewrite app_nil_r. now constructor.
  - intros w Hw. exists [], []. repeat split. now constructor.
  - intros acc Hacc. simpl re_split_go.
    destruct (lookbehind (hd_error acc) && isspace c) eqn:Hcut.
    + apply andb_prop in Hcut. destruct Hcut as [Hpunct Hsp].
      destruct (IHmatch c Hsp) as (sep & rest & -> & Hsep & Hrest & Hsent).
      change (rev acc ++ c :: sep ++ rest)
        with (rev acc ++ (c :: sep) ++ rest).
      constructor; try assumption.
      * now rewrite last_char_rev.
      * discriminate.
      * simpl. now rewrite Hsp.
    + replace (rev acc ++ c :: s) with (rev (c :: acc) ++ s)
        by (simpl; now rewrite <- app_assoc).
      apply (IHscan (c :: acc)).
      simpl rev. now rewrite has_break_snoc, Hacc, last_char_rev, Hcut.
  - intros w Hw. simpl re_split_go.
    destruct (isspace c) eqn:Hc.
    + destruct (IHmatch c Hc) as (sep & rest & -> & Hsep & Hrest & Hsent).
      exists (c :: sep), rest. repeat split; try assumption.
      simpl. now rewrite Hc.
    + rewrite andb_false_r. exists [], (c :: s). repeat split; try assumption.
      apply (IHscan [c]). reflexivity.
Qed.

Lemma re_split_sound (s : str) : sentences_of s (re_split s).
Proof. apply (proj1 (re_split_go_sound s) []). reflexivity. Qed.

(** While no cut is due the matcher only collects. *)
Lemma re_split_go_collect (p : str) :
  forall acc tail,
    has_break (rev acc ++ p) = false ->
    re_split_go (hd_error acc) false acc (p ++ tail)
    = re_split_go (hd_error (rev p ++ acc)) false (rev p ++ acc) tail.
Proof.
  induction p as [|c p IH]; intros acc tail Hnb; [reflexivity|].
  assert (Hnb' : has_break (rev (c :: acc) ++ p) = false)
    by (simpl; now rewrite <- app_assoc).
  assert (Hc : has_break (rev acc ++ [c]) = false).
  { destruct (has_break (rev acc ++ [c])) eqn:E; [|reflexivity].
    exfalso. clear - Hnb E. revert Hnb E.
    change (c :: p) with ([c] ++ p). rewrite app_assoc.
    generalize (rev acc ++ [c]). intros l. clear.
    induction p as [|d p IH] using rev_ind; [rewrite app_nil_r; congruence|].
    rewrite app_assoc, has_break_snoc. intros H E.
    apply orb_false_elim in H. destruct H as [H _]. now apply IH. }
  rewrite has_break_snoc, last_char_rev in Hc.
  apply orb_false_elim in Hc. destruct Hc as [_ Hc].
  simpl app. simpl re_split_go. rewrite Hc.
  change (Some c) with (hd_error (c :: acc)).
  rewrite (IH (c :: acc) tail Hnb'). simpl rev. now rewrite <- app_assoc.
Qed.

(** An open match takes the whole white space. *)
Lemma re_split_go_skip (sep : str) :
  forall w rest,
    forallb isspace sep = true ->
    re_split_go (Some w) true [] (sep ++ rest)
    = re_split_go (last_char (w :: sep)) true [] rest.
Proof.
  induction sep as [|c sep IH]; intros w rest Hsep; [reflexivity|].
  simpl in Hsep. apply andb_prop in Hsep. destruct Hsep as [Hc Hsep].
  simpl app. simpl re_split_go. rewrite Hc. simpl andb.
  rewrite (IH c rest Hsep). reflexivity.
Qed.

Lemma last_char_space (w : ascii) (sep : str) :
  isspace w = true -> forallb isspace sep = true ->
  exists c, last_char (w :: sep) = Some c /\ isspace c = true.
Proof.
  revert w. induction sep as [|d sep IH]; intros w Hw Hsep.
  - now exists w.
  - simpl in Hsep. apply andb_prop in Hsep. destruct Hsep as [Hd Hsep].
    destruct (IH d Hd Hsep) as (c & Hc & Hsp). now exists c.
Qed.

Lemma sentences_of_nil (ps : list str) : sentences_of [] ps -> ps = [[]].
Proof.
  intros H. inversion H as [p Hp|p sep rest ps' ? ? Hsep ? ? ? E]; subst.
  - reflexivity.
  - destruct p, sep; try discriminate E. congruence.
Qed.

(** The rule leaves no choice: the pieces are those [re.split] returns. *)
Lemma re_split_complete (s : str) (ps : list str) :
  sentences_of s ps -> ps = re_split s.
Proof.
  induction 1 as [p Hp|p sep rest ps Hp Hend Hne Hsep Hrest Hsent IH].
  - pose proof (re_split_go_collect p [] [] Hp) as E.
    rewrite app_nil_r in E. unfold re_split.
    change (hd_error []) with (@None ascii) in E. rewrite E.
    simpl. now rewrite app_nil_r, rev_involutive.
  - pose proof (re_split_go_collect p [] (sep ++ rest) Hp) as E.
    unfold re_split.
    change (hd_error []) with (@None ascii) in E. rewrite E. clear E.
    rewrite app_nil_r, <- last_char_rev, rev_involutive.
    destruct sep as [|w sep]; [congruence|].
    simpl in Hsep. apply andb_prop in Hsep. destruct Hsep as [Hw Hsep].
    simpl app. simpl re_split_go. rewrite Hend, Hw. simpl andb.
    rewrite rev_involutive. f_equal.
    rewrite (re_split_go_skip sep w rest Hsep).
    destruct (last_char_space w sep Hw Hsep) as (c & -> & Hc).
    destruct rest as [|d rest].
    + now rewrite (sentences_of_nil _ Hsent).
    + rewrite IH. unfold re_split. simpl re_split_go.
      rewrite Hrest, andb_false_r. reflexivity.
Qed.

(** Every piece is a stretch of the text. *)
Lemma sentences_of_part (s : str) (ps : list str) :
  sentences_of s ps ->
  forall p, In p ps -> exists l r, s = l ++ p ++ r.
Proof.
  induction 1 as [p Hp|p sep rest ps Hp Hend Hne Hsep Hrest Hsent IH];
    intros q Hq.
  - destruct Hq as [<-|[]]. exists [], []. simpl. now rewrite app_nil_r.
  - destruct Hq as [<-|Hq].
    + now exists [], (sep ++ rest).
    + destruct (IH q Hq) as (l & r & ->).
      exists (p ++ sep ++ l), r. now rewrite <- !app_assoc.
Qed.

(* ===================================================================== *)
(** ** [strip] *)
(* ===================================================================== *)

Lemma lstrip_tight (s : str) : tight_front (lstrip s).
Proof.
  induction s as [|c s IH]; simpl; [exact I|].
  destruct (isspace c) eqn:E; [exact IH | exact E].
Qed.

Lemma lstrip_fixed (s : str) : tight_front s -> lstrip s = s.
Proof. destruct s as [|c s]; simpl; [reflexivity|]. now intros ->. Qed.

Lemma lstrip_snoc (l : str) (c : ascii) :
  isspace c = false -> lstrip (l ++ [c]) = lstrip l ++ [c].
Proof.
  intros Hc. induction l as [|a l IH]; simpl; [now rewrite Hc|].
  destruct (isspace a); [exact IH | reflexivity].
Qed.

Lemma rstrip_tight (s : str) : tight_front s -> tight_front (rstrip s).
Proof.
  destruct s as [|c s]; [intros _; exact I|].
  simpl. intros Hc. unfold rstrip. simpl rev.
  rewrite lstrip_snoc by exact Hc. rewrite rev_app_distr. exact Hc.
Qed.

Lemma rstrip_idempotent (s : str) : rstrip (rstrip s) = rstrip s.
Proof.
  unfold rstrip. rewrite rev_involutive.
  now rewrite lstrip_fixed by apply lstrip_tight.
Qed.

Lemma strip_idempotent (s : str) : strip (strip s) = strip s.
Proof.
  unfold strip.
  rewrite lstrip_fixed by apply rstrip_tight, lstrip_tight.
  apply rstrip_idempotent.
Qed.

Lemma stripped_nonempty_fixed (pieces : list str) (x : str) :
  In x (stripped_nonempty pieces) -> strip x = x /\ x <> [].
Proof.
  unfold stripped_nonempty. intros H.
  apply in_map_iff in H. destruct H as (y & <- & Hy).
  apply filter_In in Hy. destruct Hy as [_ Hy].
  split; [apply strip_idempotent|].
  destruct (strip y); [discriminate Hy | discriminate].
Qed.

Lemma isspace_lower_char (c : ascii) : isspace (lower_char c) = isspace c.
Proof. destruct c as [[] [] [] [] [] [] [] []]; reflexivity. Qed.

Lemma tight_front_lower (s : str) : tight_front s -> tight_front (lower s).
Proof.
  destruct s as [|c s]; [trivial|]. simpl. now rewrite isspace_lower_char.
Qed.

Lemma forallb_isspace_rev (s : str) :
  forallb isspace s = true -> forallb isspace (rev s) = true.
Proof.
  rewrite !forallb_forall. intros H c Hc. apply H. now apply in_rev.
Qed.

Lemma forallb_isspace_lower (s : str) :
  forallb isspace s = true -> forallb isspace (lower s) = true.
Proof.
  induction s as [|c s IH]; [trivial|]. simpl.
  rewrite isspace_lower_char. intros H. apply andb_prop in H.
  destruct H as [-> H]. now apply IH.
Qed.

Lemma lstrip_part (s : str) :
  exists l, s = l ++ lstrip s /\ forallb isspace l = true.
Proof.
  induction s as [|c s (l & E & Hl)]; [now exists []|].
  simpl. destruct (isspace c) eqn:Hc.
  - exists (c :: l). simpl. rewrite Hc. split; [now f_equal | exact Hl].
  - now exists [].
Qed.

(** What [strip] removes is white space at the two ends. *)
Lemma strip_part (s : str) :
  exists l r,
    s = l ++ strip s ++ r
    /\ forallb isspace l = true /\ forallb isspace r = true.
Proof.
  destruct (lstrip_part s) as (l & El & Hl).
  destruct (lstrip_part (rev (lstrip s))) as (r & Er & Hr).
  exists l, (rev r). repeat split; [|exact Hl | now apply forallb_isspace_rev].
  unfold strip, rstrip. rewrite <- rev_app_distr, <- Er, rev_involutive.
  exact El.
Qed.

Lemma contains_rev (w s : str) :
  contains w s = true -> contains (rev w) (rev s) = true.
Proof.
  intros H. destruct (contains_inv _ _ H) as (l & r & ->).
  rewrite !rev_app_distr, <- app_assoc. apply contains_intro.
Qed.

Lemma contains_behind_space (w x y : str) :
  w <> [] -> tight_front w -> forallb isspace x = true ->
  contains w (x ++ y) = true -> contains w y = true.
Proof.
  intros Hne Hw. induction x as [|c x IH]; intros Hx H; [exact H|].
  simpl in Hx. apply andb_prop in Hx. destruct Hx as [Hc Hx].
  apply IH; [exact Hx|].
  change (contains w ((c :: x) ++ y))
    with (startswith w (c :: x ++ y) || contains w (x ++ y)) in H.
  apply orb_prop in H. destruct H as [H|H]; [|exact H].
  destruct w as [|a w]; [congruence|]. simpl in H, Hw.
  apply andb_prop in H. destruct H as [Hac _].
  apply Ascii.eqb_eq in Hac. congruence.
Qed.

Lemma contains_before_space (w y z : str) :
  w <> [] -> tight_front (rev w) -> forallb isspace z = true ->
  contains w (y ++ z) = true -> contains w y = true.
Proof.
  intros Hne Hw Hz H. apply contains_rev in H. rewrite rev_app_distr in H.
  apply contains_behind_space in H.
  - apply contains_rev in H. now rewrite !rev_involutive in H.
  - intros E. apply Hne. now rewrite <- (rev_involutive w), E.
  - exact Hw.
  - now apply forallb_isspace_rev.
Qed.

(** A trimmed term lies in a sentence exactly when it lies in the trimmed
    sentence. *)
Lemma contains_strip (t s : str) :
  strip t = t ->
  contains (lower t) (lower (strip s)) = contains (lower t) (lower s).
Proof.
  intros Ht. destruct (strip_part s) as (l & r & Es & Hl & Hr).
  apply eq_true_iff_eq. split; intros H.
  - rewrite Es. now apply contains_lower_part.
  - destruct t as [|a t]; [now destruct (lower (strip s))|].
    assert (Hfront : tight_front (lower (a :: t))).
    { apply tight_front_lower. rewrite <- Ht.
      apply rstrip_tight, lstrip_tight. }
    assert (Hback : tight_front (rev (lower (a :: t)))).
    { unfold lower. rewrite <- map_rev. apply tight_front_lower.
      rewrite <- Ht. unfold strip, rstrip. rewrite rev_involutive.
      apply lstrip_tight. }
    rewrite Es, !lower_app in H.
    apply contains_behind_space in H;
      [|discriminate | exact Hfront | now apply forallb_isspace_lower].
    apply contains_before_space in H;
      [exact H | discriminate | exact Hback
       | now apply forallb_isspace_lower].
Qed.

(* ===================================================================== *)
(** ** The dictionary of results *)
(* ===================================================================== *)

Lemma dict_lookup_set_same (k : str) (v : entry) (d : dict) :
  dict_lookup k (dict_set k v d) = Some v.
Proof.
  induction d as [|[k' v'] d IH]; simpl.
  - now rewrite str_eqb_refl.
  - destruct (str_eqb k k') eqn:E; simpl; now rewrite E.
Qed.

Lemma dict_lookup_set_other (k k' : str) (v : entry) (d : dict) :
  k <> k' -> dict_lookup k (dict_set k' v d) = dict_lookup k d.
Proof.
  intros Hne. induction d as [|[k0 v0] d IH]; simpl.
  - apply str_eqb_neq in Hne. now rewrite Hne.
  - destruct (str_eqb k' k0) eqn:E; simpl.
    + apply str_eqb_eq in E. subst k0.
      apply str_eqb_neq in Hne. now rewrite Hne.
    + now rewrite IH.
Qed.

Lemma dict_set_entries (k k' : str) (e v : entry) (d : dict) :
  In (k, e) (dict_set k' v d) -> In (k, e) d \/ (k = k' /\ e = v).
Proof.
  induction d as [|[k0 v0] d IH]; simpl.
  - intros [H|[]]. right. now inversion H.
  - destruct (str_eqb k' k0) eqn:E; simpl.
    + apply str_eqb_eq in E. subst k0.
      intros [H|H]; [right; now inversion H | left; now right].
    + intros [H|H]; [left; now left|].
      destruct (IH H) as [H'|H']; [left; now right | now right].
Qed.

Lemma analyze_word_eq (abstract : str) (results : dict) (word : str) :
  analyze_word (lower abstract) (re_split abstract) results word
  = dict_set (lower word) (entry_for abstract (lower word)) results.
Proof. reflexivity. Qed.

Lemma fold_analyze_keeps (abstract : str) (words : list str) (k : str) :
  forall d0,
    dict_lookup k d0 = Some (entry_for abstract k) ->
    dict_lookup k
      (fold_left (analyze_word (lower abstract) (re_split abstract)) words d0)
    = Some (entry_for abstract k).
Proof.
  induction words as [|w words IH]; intros d0 H; [exact H|].
  simpl fold_left. apply IH. rewrite analyze_word_eq.
  destruct (list_eq_dec ascii_dec k (lower w)) as [->|Hne].
  - apply dict_lookup_set_same.
  - now rewrite dict_lookup_set_other.
Qed.

Lemma fold_analyze_lookup (abstract : str) (words : list str) (t : str) :
  In t words ->
  forall d0,
    dict_lookup (lower t)
      (fold_left (analyze_word (lower abstract) (re_split abstract)) words d0)
    = Some (entry_for abstract (lower t)).
Proof.
  induction words as [|w words IH]; intros Hin d0; [destruct Hin|].
  simpl fold_left. destruct Hin as [->|Hin].
  - apply fold_analyze_keeps. rewrite analyze_word_eq.
    apply dict_lookup_set_same.
  - now apply IH.
Qed.

Lemma fold_analyze_entries (abstract : str) (words : list str)
    (k : str) (e : entry) :
  forall d0,
    In (k, e)
      (fold_left (analyze_word (lower abstract) (re_split abstract)) words d0)
    -> In (k, e) d0 \/ e = entry_for abstract k.
Proof.
  induction words as [|w words IH]; intros d0 H; [now left|].
  simpl fold_left in H. destruct (IH _ H) as [H'|H']; [|now right].
  rewrite analyze_word_eq in H'.
  destruct (dict_set_entries _ _ _ _ _ H') as [H''|[-> ->]];
    [now left | now right].
Qed.

Lemma analyze_nonempty (abstract : str) (words : list str) :
  abstract <> [] ->
  analyze_words_in_abstract (Some abstract) words
  = Some (fold_left (analyze_word (lower abstract) (re_split abstract))
                    words []).
Proof. destruct abstract; [congruence | reflexivity]. Qed.

(** Every input term has its entry, under the lower-cased term. *)
Lemma analyze_entry (abstract : str) (words : list str) (t : str) :
  abstract <> [] -> In t words ->
  exists d,
    analyze_words_in_abstract (Some abstract) words = Some d
    /\ dict_lookup (lower t) d = Some (entry_for abstract (lower t)).
Proof.
  intros Hne Hin. eexists. split; [now apply analyze_nonempty|].
  now apply fold_analyze_lookup.
Qed.

Lemma containing_sentences_filter (word : str) (sentences : list str) :
  containing_sentences word sentences
  = map strip (filter (fun s => contains word (lower s)) sentences).
Proof.
  induction sentences as [|s ss IH]; simpl; [reflexivity|].
  destruct (contains word (lower s)); simpl; now rewrite IH.
Qed.

Lemma contains_count (w s : str) : contains w s = true -> 1 <= count s w.
Proof.
  intros H. destruct (contains_inv _ _ H) as (l & r & ->).
  destruct (count_is_number_of_occurrences (l ++ w ++ r) w) as [_ Hmax].
  apply (Hmax [length l]). split.
  - simpl. split; [lia | exact I].
  - constructor; [|constructor]. split.
    + rewrite length_app. lia.
    + rewrite skipn_app, skipn_all, Nat.sub_diag. simpl.
      apply startswith_app.
Qed.

(* ===================================================================== *)
(** ** The analyzer *)
(* ===================================================================== *)

(** C8. Whatever the terms, an empty abstract and an absent one give the
    absent result: no mapping is produced. *)
Theorem analyze_empty_or_absent (words : list str) :
  analyze_words_in_abstract (Some (lit "")) words = None
  /\ analyze_words_in_abstract None words = None.
Proof. split; reflexivity. Qed.

(** C3 as stated fails: the analyzer lower-cases a term but does not trim it.
    For the one term " A" the only key is " a"; nothing is stored under "a". *)
Lemma analyze_does_not_trim_terms :
  analyze_words_in_abstract (Some (lit "x")) [lit " A"]
  = Some [(lit " a", Entry 0 [])]
  /\ ~ keyed_by_trimmed_term (lit "x") [lit " A"].
Proof.
  split; [reflexivity|].
  intros H. destruct (H (lit " A") (or_introl eq_refl)) as (d & e & Hd & He).
  vm_compute in Hd. injection Hd as <-. vm_compute in He. discriminate He.
Qed.

(** C3, amended. For a non-empty abstract, every term [t] of the input list
    has an entry under the key [lower t] (the term lower-cased, not trimmed),
    and that entry is the one computed from the lower-cased term. Trimming is
    the driver's: every term it passes on is non-empty and already trimmed,
    so there the key is the trimmed, lower-cased term. *)
Theorem analyze_keyed_by_lowered_term :
  (forall (abstract : str) (words : list str) (t : str),
      abstract <> [] -> In t words ->
      exists d,
        analyze_words_in_abstract (Some abstract) words = Some d
        /\ dict_lookup (lower t) d = Some (entry_for abstract (lower t)))
  /\ (forall (words_input t : str),
         In t (parse_words words_input) ->
         t <> [] /\ lower (strip t) = lower t).
Proof.
  split.
  - intros abstract words t. apply analyze_entry.
  - intros words_input t Hin.
    destruct (stripped_nonempty_fixed _ _ Hin) as [E Hne].
    split; [exact Hne | now rewrite E].
Qed.

Lemma analyze_keyed_by_lowered_term_witness :
  exists d,
    analyze_words_in_abstract (Some (lit "x")) [lit " A"] = Some d
    /\ dict_lookup (lower (lit " A")) d
       = Some (entry_for (lit "x") (lower (lit " A"))).
Proof.
  apply (proj1 analyze_keyed_by_lowered_term (lit "x") [lit " A"] (lit " A")).
  - discriminate.
  - simpl. auto.
Defined.

(** C4. For a non-empty abstract and a term [t] of the list, the count stored
    for [t] is the number of non-overlapping occurrences of the lower-cased
    term in the lower-cased abstract: some family of pairwise non-overlapping
    occurrences has that many members, and no family has more. Occurrences
    are plain substrings, inside words too:
    "abstractabstractabstract" has count 3 for "abstract". *)
Theorem analyze_count_is_number_of_occurrences :
  (forall (abstract : str) (words : list str) (t : str),
      abstract <> [] -> In t words ->
      exists d e,
        analyze_words_in_abstract (Some abstract) words = Some d
        /\ dict_lookup (lower t) d = Some e
        /\ number_of_occurrences (lower t) (lower abstract) (entry_count e))
  /\ analyze_words_in_abstract (Some (lit "abstractabstractabstract"))
                               [lit "abstract"]
     = Some [(lit "abstract", Entry 3 [lit "abstractabstractabstract"])].
Proof.
  split; [|reflexivity].
  intros abstract words t Hne Hin.
  destruct (analyze_entry abstract words t Hne Hin) as (d & Hd & He).
  exists d, (entry_for abstract (lower t)).
  split; [exact Hd|]. split; [exact He|].
  apply count_is_number_of_occurrences.
Qed.

Lemma analyze_count_is_number_of_occurrences_witness :
  exists d e,
    analyze_words_in_abstract (Some (lit "Cat scat.")) [lit "CAT"] = Some d
    /\ dict_lookup (lower (lit "CAT")) d = Some e
    /\ number_of_occurrences (lower (lit "CAT")) (lower (lit "Cat scat."))
                             (entry_count e).
Proof.
  apply (proj1 analyze_count_is_number_of_occurrences
               (lit "Cat scat.") [lit "CAT"] (lit "CAT")).
  - discriminate.
  - simpl. auto.
Defined.

(** C5. The sentences of a non-empty abstract are cut by the sentence rule
    (a cut behind each of [.], [!], [?] that white space follows, the
    punctuation kept with the sentence before it), and the rule allows no
    other cut. For a term [t] of the list, the sentences stored for [t] are
    exactly the sentences whose lower-cased text contains the lower-cased
    term, in the order of the text, in their own casing, each one trimmed.
    For a trimmed term, as the driver passes them, it makes no difference
    whether the term is looked for in a sentence before or after the
    sentence is trimmed.
    "Cats are great. Dogs are great too!" with "great" gives count 2 and
    both sentences. *)
Theorem analyze_sentences_are_the_matching_ones :
  (forall (abstract : str) (words : list str) (t : str),
      abstract <> [] -> In t words ->
      sentences_of abstract (re_split abstract)
      /\ (forall ps, sentences_of abstract ps -> ps = re_split abstract)
      /\ exists d e,
          analyze_words_in_abstract (Some abstract) words = Some d
          /\ dict_lookup (lower t) d = Some e
          /\ entry_sentences e
             = map strip
                   (filter (fun s => contains (lower t) (lower s))
                           (re_split abstract)))
  /\ (forall t s : str,
         strip t = t ->
         contains (lower t) (lower (strip s))
         = contains (lower t) (lower s))
  /\ analyze_words_in_abstract
       (Some (lit "Cats are great. Dogs are great too!")) [lit "great"]
     = Some [(lit "great",
              Entry 2 [lit "Cats are great."; lit "Dogs are great too!"])].
Proof.
  split; [|split; [exact contains_strip | reflexivity]].
  intros abstract words t Hne Hin.
  split; [apply re_split_sound|].
  split; [apply re_split_complete|].
  destruct (analyze_entry abstract words t Hne Hin) as (d & Hd & He).
  exists d, (entry_for abstract (lower t)). repeat split; try assumption.
  apply containing_sentences_filter.
Qed.

Lemma analyze_sentences_are_the_matching_ones_witness :
  sentences_of (lit "Is it? No. OK") (re_split (lit "Is it? No. OK"))
  /\ (forall ps, sentences_of (lit "Is it? No. OK") ps ->
                 ps = re_split (lit "Is it? No. OK"))
  /\ exists d e,
      analyze_words_in_abstract (Some (lit "Is it? No. OK")) [lit "O"]
      = Some d
      /\ dict_lookup (lower (lit "O")) d = Some e
      /\ entry_sentences e
         = map strip
               (filter (fun s => contains (lower (lit "O")) (lower s))
                       (re_split (lit "Is it? No. OK"))).
Proof.
  apply (proj1 analyze_sentences_are_the_matching_ones
               (lit "Is it? No. OK") [lit "O"] (lit "O")).
  - discriminate.
  - simpl. auto.
Defined.

(** C10. In the result for a non-empty abstract, an entry that lists a
    sentence has a count of at least 1: the sentence is a stretch of the
    abstract, so the term found in it is found in the abstract. *)
Theorem analyze_sentences_imply_count (abstract : str) (words : list str)
    (d : dict) (k : str) (e : entry) :
  abstract <> [] ->
  analyze_words_in_abstract (Some abstract) words = Some d ->
  In (k, e) d ->
  entry_sentences e <> [] ->
  1 <= entry_count e.
Proof.
  intros Hne Hd Hin Hsent.
  rewrite (analyze_nonempty _ words Hne) in Hd. injection Hd as <-.
  destruct (fold_analyze_entries _ _ _ _ _ Hin) as [[]| ->].
  simpl in Hsent |- *. rewrite containing_sentences_filter in Hsent.
  destruct (filter _ _) as [|s ss] eqn:E; [now elim Hsent|].
  assert (Hs : In s (filter (fun s => contains k (lower s))
                            (re_split abstract)))
    by (rewrite E; now left).
  apply filter_In in Hs. destruct Hs as [Hs Hk].
  destruct (sentences_of_part _ _ (re_split_sound abstract) _ Hs)
    as (l & r & Habs).
  apply contains_count. rewrite Habs at 1.
  now apply contains_lower_part.
Qed.

Lemma analyze_sentences_imply_count_witness :
  1 <= entry_count (Entry 2 [lit "A cat.";  lit "Cats"]).
Proof.
  apply (@analyze_sentences_imply_count
           (lit "A cat. Cats") [lit "CAT"]
           [(lit "cat", Entry 2 [lit "A cat.";  lit "Cats"])]
           (lit "cat") (Entry 2 [lit "A cat.";  lit "Cats"])).
  - discriminate.
  - reflexivity.
  - simpl. auto.
  - discriminate.
Defined.


(* ===================================================================== *)
(** ** The fetcher *)
(* ===================================================================== *)

Lemma get_pubmed_abstract_unfold {World Response : Type}
    (ext : externals World Response) (pubmed_id : str) (w : World) :
  get_pubmed_abstract ext pubmed_id w
  = match fetch_body ext pubmed_id w with
    | (inr a, w') => (inr a, w')
    | (inl e, w') => (inr (Some (error_prefix ++ e)), w')
    end.
Proof.
  unfold get_pubmed_abstract, try_except.
  now destruct (fetch_body ext pubmed_id w) as [[e|a] w'].
Qed.

(** The call returns; nothing is raised. *)
Lemma get_pubmed_abstract_returns {World Response : Type}
    (ext : externals World Response) (pubmed_id : str) (w : World) :
  exists r w', get_pubmed_abstract ext pubmed_id w = (inr r, w').
Proof.
  rewrite get_pubmed_abstract_unfold.
  destruct (fetch_body ext pubmed_id w) as [[e|a] w']; eauto.
Qed.

Lemma error_text_included (e : str) : contains e (error_prefix ++ e) = true.
Proof.
  rewrite <- (app_nil_r e) at 2. apply contains_intro.
Qed.

(** C1. For every identifier, whatever the outside world does, the fetch
    returns a value and raises nothing. An exception raised anywhere in the
    [try] block (by the user-agent source, by the HTTP request, by the status
    check or by the parser) becomes the result
    "Error fetching PubMed article: " followed by the exception's text, which
    the message therefore includes; otherwise the result is the extracted
    abstract. *)
Theorem fetch_never_raises {World Response : Type}
    (ext : externals World Response) (pubmed_id : str) (w : World) :
  (exists r w', get_pubmed_abstract ext pubmed_id w = (inr r, w'))
  /\ (forall e w',
         fetch_body ext pubmed_id w = (inl e, w') ->
         get_pubmed_abstract ext pubmed_id w
         = (inr (Some (error_prefix ++ e)), w')
         /\ contains e (error_prefix ++ e) = true)
  /\ (forall e w1,
         get_random_user_agent ext w = (inl e, w1) ->
         get_pubmed_abstract ext pubmed_id w
         = (inr (Some (error_prefix ++ e)), w1))
  /\ (forall ua w1,
         get_random_user_agent ext w = (inr ua, w1) ->
         (forall e w2,
             requests_get ext (article_url pubmed_id) ua w1 = (inl e, w2) ->
             get_pubmed_abstract ext pubmed_id w
             = (inr (Some (error_prefix ++ e)), w2))
         /\ (forall response w2,
                requests_get ext (article_url pubmed_id) ua w1
                = (inr response, w2) ->
                (forall e w3,
                    raise_for_status ext response w2 = (inl e, w3) ->
                    get_pubmed_abstract ext pubmed_id w
                    = (inr (Some (error_prefix ++ e)), w3))
                /\ (forall w3,
                       raise_for_status ext response w2 = (inr tt, w3) ->
                       (forall e w4,
                           BeautifulSoup ext (response_text ext response) w3
                           = (inl e, w4) ->
                           get_pubmed_abstract ext pubmed_id w
                           = (inr (Some (error_prefix ++ e)), w4))
                       /\ (forall soup w4,
                              BeautifulSoup ext (response_text ext response) w3
                              = (inr soup, w4) ->
                              get_pubmed_abstract ext pubmed_id w
                              = (inr (abstract (extract soup)), w4))))).
Proof.
  split; [apply get_pubmed_abstract_returns|].
  split.
  { intros e w' H. rewrite get_pubmed_abstract_unfold, H.
    split; [reflexivity | apply error_text_included]. }
  rewrite get_pubmed_abstract_unfold. unfold fetch_body, bind.
  split.
  { intros e w1 ->. reflexivity. }
  intros ua w1 ->. split.
  { intros e w2 ->. reflexivity. }
  intros response w2 ->. split.
  { intros e w3 ->. reflexivity. }
  intros w3 ->. split.
  - intros e w4 ->. reflexivity.
  - intros soup w4 ->. reflexivity.
Qed.

Lemma fetch_never_raises_witness :
  get_pubmed_abstract (one_article page_with_both) (lit "404") []
  = (inr (Some (error_prefix ++ lit "404 Error for url")),
     [article_url (lit "404")])
  /\ contains (lit "404 Error for url")
              (error_prefix ++ lit "404 Error for url") = true.
Proof.
  apply (proj1 (proj2 (fetch_never_raises (one_article page_with_both)
                                          (lit "404") []))).
  reflexivity.
Defined.

(** A method that finds something sets [abstract]; one that finds nothing
    leaves it as it was. *)
Lemma method1_carry (soup : node) (prev : option str) :
  method1 soup prev
  = match method1 soup None with Some v => Some v | None => prev end.
Proof. unfold method1. now destruct (find _ _ soup). Qed.

Lemma method_meta_carry (name : str) (soup : node) (prev : option str) :
  method_meta name soup prev
  = match method_meta name soup None with Some v => Some v | None => prev end.
Proof. unfold method_meta. now destruct (find _ _ soup). Qed.

Lemma method4_loop_find (ps : list node) (prev : option str) :
  method4_loop ps prev
  = match List.find (fun p => looks_like_abstract p (strip (get_text p))) ps
    with
    | Some p => Some (strip (get_text p))
    | None => prev
    end.
Proof.
  induction ps as [|p ps IH]; simpl; [reflexivity|].
  now destruct (looks_like_abstract p (strip (get_text p))).
Qed.

Lemma method4_carry (soup : node) (prev : option str) :
  method4 soup prev
  = match method4 soup None with Some v => Some v | None => prev end.
Proof.
  unfold method4. rewrite !method4_loop_find. now destruct (List.find _ _).
Qed.

Lemma carried_value (found prev : option str) :
  truthy_opt prev = false ->
  (truthy_opt found = true ->
   match found with Some v => Some v | None => prev end = found)
  /\ (truthy_opt found = false ->
      truthy_opt (match found with Some v => Some v | None => prev end)
      = false).
Proof. intros Hp. destruct found; simpl; split; congruence. Qed.

Lemma if_not_abstract_found (f : progress -> progress) (st : progress) :
  truthy_opt (abstract st) = true -> if_not_abstract f st = st.
Proof. unfold if_not_abstract. now intros ->. Qed.

Lemma if_not_abstract_run (f : progress -> progress) (st : progress) :
  truthy_opt (abstract st) = false -> if_not_abstract f st = f st.
Proof. unfold if_not_abstract. now intros ->. Qed.

(** The guards of the extraction, spelled out. *)
Lemma up_to_method3_cases (soup : node) :
  up_to_method3 soup
  = let a1 := method1 soup None in
    if truthy_opt a1 then Progress a1 [1] else
    let a2 := method2 soup a1 in
    if truthy_opt a2 then Progress a2 [1; 2] else
    Progress (method3 soup a2) [1; 2; 3].
Proof.
  unfold up_to_method3. cbv zeta.
  change (attempt 1 (method1 soup) (Progress None []))
    with (Progress (method1 soup None) [1]).
  destruct (truthy_opt (method1 soup None)) eqn:E1.
  - rewrite (if_not_abstract_found (attempt 2 (method2 soup))) by exact E1.
    now rewrite if_not_abstract_found by exact E1.
  - rewrite (if_not_abstract_run (attempt 2 (method2 soup))) by exact E1.
    change (attempt 2 (method2 soup) (Progress (method1 soup None) [1]))
      with (Progress (method2 soup (method1 soup None)) [1; 2]).
    destruct (truthy_opt (method2 soup (method1 soup None))) eqn:E2.
    + now rewrite if_not_abstract_found.
    + now rewrite if_not_abstract_run.
Qed.

Lemma extract_cases (soup : node) :
  extract soup
  = let a1 := method1 soup None in
    if truthy_opt a1 then Progress a1 [1] else
    let a2 := method2 soup a1 in
    if truthy_opt a2 then Progress a2 [1; 2] else
    let a3 := method3 soup a2 in
    if truthy_opt a3 then Progress a3 [1; 2; 3] else
    Progress (method4 soup a3) [1; 2; 3; 4].
Proof.
  unfold extract. rewrite up_to_method3_cases. cbv zeta.
  destruct (truthy_opt (method1 soup None)) eqn:E1;
    [now rewrite if_not_abstract_found|].
  destruct (truthy_opt (method2 soup (method1 soup None))) eqn:E2;
    [now rewrite if_not_abstract_found|].
  destruct (truthy_opt (method3 soup (method2 soup (method1 soup None))))
    eqn:E3; [now rewrite if_not_abstract_found|].
  now rewrite if_not_abstract_run.
Qed.

(** C6. The four methods run in the order 1, 2, 3, 4, and the first one that
    finds a non-empty text decides the result; the methods behind it are not
    run. (What a method finds is what it returns when nothing was found
    before it.) A page with both an abstract section and a
    [citation_abstract] meta tag gives the text of the section, by
    method 1 alone. *)
Theorem extraction_first_nonempty_wins (soup : node) :
  let found1 := method1 soup None in
  let found2 := method2 soup None in
  let found3 := method3 soup None in
  let found4 := method4 soup None in
  (truthy_opt found1 = true -> extract soup = Progress found1 [1])
  /\ (truthy_opt found1 = false -> truthy_opt found2 = true ->
      extract soup = Progress found2 [1; 2])
  /\ (truthy_opt found1 = false -> truthy_opt found2 = false ->
      truthy_opt found3 = true ->
      extract soup = Progress found3 [1; 2; 3])
  /\ (truthy_opt found1 = false -> truthy_opt found2 = false ->
      truthy_opt found3 = false ->
      attempted (extract soup) = [1; 2; 3; 4]
      /\ (truthy_opt found4 = true -> abstract (extract soup) = found4)
      /\ (truthy_opt found4 = false ->
          truthy_opt (abstract (extract soup)) = false))
  /\ extract page_with_both = Progress (Some (lit "From the section.")) [1]
  /\ method3 page_with_both None = Some (lit "From the meta tag.").
Proof.
  intros found1 found2 found3 found4. rewrite extract_cases.
  unfold method2, method3 in *.
  rewrite (method_meta_carry (lit "description")).
  rewrite (method_meta_carry (lit "citation_abstract")).
  rewrite method4_carry.
  fold found1 found2 found3 found4. cbv zeta.
  split; [intros H1; now rewrite H1|].
  split.
  { intros H1 H2. rewrite H1.
    destruct (carried_value found2 found1 H1) as [E _].
    now rewrite (E H2), H2. }
  split.
  { intros H1 H2 H3. rewrite H1.
    destruct (carried_value found2 found1 H1) as [_ E2].
    rewrite (E2 H2).
    destruct (carried_value found3 _ (E2 H2)) as [E3 _].
    now rewrite (E3 H3), H3. }
  split.
  { intros H1 H2 H3. rewrite H1.
    destruct (carried_value found2 found1 H1) as [_ E2].
    rewrite (E2 H2).
    destruct (carried_value found3 _ (E2 H2)) as [_ E3].
    rewrite (E3 H3). simpl.
    destruct (carried_value found4 _ (E3 H3)) as [E4 E4'].
    repeat split; assumption. }
  split; reflexivity.
Qed.

Lemma extraction_first_nonempty_wins_witness :
  extract page_with_both = Progress (method1 page_with_both None) [1]
  /\ extract page_with_abstract_id
     = Progress (method4 page_with_abstract_id None) [1; 2; 3; 4].
Proof.
  split.
  - apply (proj1 (extraction_first_nonempty_wins page_with_both)).
    reflexivity.
  - destruct (extraction_first_nonempty_wins page_with_abstract_id)
      as (_ & _ & _ & H & _).
    destruct (H eq_refl eq_refl eq_refl) as (Hlog & Hval & _).
    specialize (Hval eq_refl).
    destruct (extract page_with_abstract_id) as [a l].
    simpl in Hlog, Hval. now rewrite Hlog, Hval.
Defined.

Lemma has_class_In (c : str) (p : node) :
  has_class c p = true <-> In c (get_class p).
Proof.
  unfold has_class. rewrite existsb_exists. split.
  - intros (x & Hx & E). apply str_eqb_eq in E. now subst x.
  - intros H. exists c. split; [exact H | apply str_eqb_refl].
Qed.

Lemma contains_self (w : str) : contains w w = true.
Proof.
  pose proof (contains_intro w [] []) as H.
  now rewrite app_nil_r in H.
Qed.

(** C2 as stated fails: a paragraph of class "abstract-text" with 101
    characters of text qualifies in the claim's sense (a class contains the
    substring "abstract"), yet nothing is extracted. *)
Lemma method4_ignores_class_substring :
  List.find spec_paragraph_qualifies
            (find_all (lit "p") page_with_abstract_text_class)
  = Some (Tag (lit "p") [lit "abstract-text"] [] [NavigableString long_text])
  /\ abstract (extract page_with_abstract_text_class) = None
  /\ ~ spec_method4 page_with_abstract_text_class.
Proof.
  split; [reflexivity|]. split; [reflexivity|].
  intros H. specialize (H eq_refl _ eq_refl). discriminate H.
Qed.

(** C2, amended. When methods 1 to 3 have found nothing, the result is the
    trimmed text of the first paragraph in document order whose trimmed text
    is longer than 100 characters and which has the class token "abstract"
    (one of its classes is exactly that word) or whose id contains the
    substring "abstract"; with no such paragraph the result stays what
    methods 1 to 3 left, which is empty or absent. Every paragraph that
    passes this test also qualifies in the claim's wider sense. *)
Theorem method4_first_abstract_paragraph (soup : node) :
  truthy_opt (abstract (up_to_method3 soup)) = false ->
  let passes := fun p => looks_like_abstract p (strip (get_text p)) in
  (forall p,
      List.find passes (find_all (lit "p") soup) = Some p ->
      abstract (extract soup) = Some (strip (get_text p)))
  /\ (List.find passes (find_all (lit "p") soup) = None ->
      abstract (extract soup) = abstract (up_to_method3 soup))
  /\ (forall p,
         passes p = true <->
         100 < length (strip (get_text p))
         /\ (In (lit "abstract") (get_class p)
             \/ contains (lit "abstract") (get (lit "id") [] p) = true))
  /\ (forall p, passes p = true -> spec_paragraph_qualifies p = true).
Proof.
  intros Hnone passes.
  assert (E : abstract (extract soup)
              = match List.find passes (find_all (lit "p") soup) with
                | Some p => Some (strip (get_text p))
                | None => abstract (up_to_method3 soup)
                end).
  { unfold extract. rewrite if_not_abstract_run by exact Hnone.
    unfold attempt, method4. simpl abstract. apply method4_loop_find. }
  assert (Hpass : forall p,
             passes p = true <->
             100 < length (strip (get_text p))
             /\ (In (lit "abstract") (get_class p)
                 \/ contains (lit "abstract") (get (lit "id") [] p) = true)).
  { intros p. unfold passes, looks_like_abstract.
    rewrite andb_true_iff, orb_true_iff, Nat.ltb_lt, has_class_In.
    reflexivity. }
  split; [intros p Hp; now rewrite E, Hp|].
  split; [intros Hp; now rewrite E, Hp|].
  split; [exact Hpass|].
  intros p Hp. apply Hpass in Hp. destruct Hp as [Hlen Hmark].
  unfold spec_paragraph_qualifies.
  apply andb_true_iff. split; [now apply Nat.ltb_lt|].
  apply orb_true_iff. destruct Hmark as [Hcls|Hid]; [left | now right].
  apply existsb_exists. exists (lit "abstract").
  split; [exact Hcls | apply contains_self].
Qed.

Lemma method4_first_abstract_paragraph_witness :
  abstract (extract page_with_abstract_id) = Some long_text.
Proof.
  apply (proj1 (method4_first_abstract_paragraph page_with_abstract_id
                                                 eq_refl)
               (Tag (lit "p") [lit "lead"] [(lit "id", lit "main-abstract")]
                    [NavigableString (lit "  " ++ long_text ++ lit " ")])).
  reflexivity.
Defined.

(* ===================================================================== *)
(** ** The driver *)
(* ===================================================================== *)

Section DriverRuns.

Context {World Response : Type}.
Variable ext : externals World Response.

Lemma show_sentences_run (sentences : list str) :
  forall i (s : session World),
    show_sentences i sentences s
    = (inr tt, Session (world s) (screen s ++ sentence_calls i sentences)).
Proof.
  induction sentences as [|x xs IH]; intros i s; simpl.
  - unfold ret. rewrite app_nil_r. now destruct s.
  - unfold bind, emit. rewrite IH. simpl. now rewrite <- app_assoc.
Qed.

Lemma show_word_run (item : str * entry) (s : session World) :
  show_word item s
  = (inr tt, Session (world s) (screen s ++ word_calls item)).
Proof.
  destruct item as [word data]. unfold show_word, word_calls, bind, emit.
  destruct (entry_sentences data) as [|x xs].
  - simpl. now rewrite <- app_assoc.
  - rewrite show_sentences_run. simpl. now rewrite <- !app_assoc.
Qed.

Lemma show_words_run (results : dict) :
  forall s : session World,
    for_each results (@show_word World) s
    = (inr tt, Session (world s) (screen s ++ flat_map word_calls results)).
Proof.
  induction results as [|item results IH]; intros s; simpl.
  - unfold ret. rewrite app_nil_r. now destruct s.
  - unfold bind. rewrite show_word_run, IH. simpl. now rewrite <- app_assoc.
Qed.

Lemma text_area_shown_header (label value : str) (height : nat)
    (page : list st_call) (header : str) :
  text_area_shown label value height (page ++ [St_subheader header])
  = text_area_shown label value height page.
Proof.
  unfold text_area_shown. rewrite existsb_app. simpl. now rewrite !orb_false_r.
Qed.

(** One turn of the loop, given what the fetch returns: the abstract box is
    refused when it is on the page already, and nothing else raises. *)
Lemma show_article_run (words : list str) (pubmed_id : str)
    (s : session World) (r : option str) (w' : World) :
  get_pubmed_abstract ext pubmed_id (world s) = (inr r, w') ->
  show_article ext words pubmed_id s
  = if is_success r
       && text_area_shown (lit "Abstract") (text_of r) 200 (screen s)
    then (inl duplicate_element_id,
          Session w' (screen s
                      ++ [St_subheader (lit "PubMed ID: " ++ pubmed_id)]))
    else (inr tt, Session w' (screen s ++ article_calls words pubmed_id r)).
Proof.
  intros Hfetch.
  unfold show_article, article_calls, bind, emit, lift, text_area.
  cbn [world]. rewrite Hfetch. cbn [world screen].
  destruct (is_success r); cbn [andb world screen];
    [|now rewrite <- !app_assoc].
  rewrite text_area_shown_header.
  destruct (text_area_shown (lit "Abstract") (text_of r) 200 (screen s));
    [reflexivity|].
  unfold analysis_calls. cbn [world screen].
  destruct (analyze_words_in_abstract r words) as [[|item results]|].
  - cbn [world screen]. now rewrite <- !app_assoc.
  - rewrite show_words_run. cbn [world screen]. now rewrite <- !app_assoc.
  - cbn [world screen]. now rewrite <- !app_assoc.
Qed.

Lemma sentence_calls_plain (sentences : list str) :
  forall i,
    existsb is_subheader (sentence_calls i sentences) = false
    /\ filter (fun c => is_text_area c || is_error c)
              (sentence_calls i sentences) = [].
Proof.
  induction sentences as [|x xs IH]; intros i; simpl; [now split|].
  apply IH.
Qed.

Lemma word_calls_plain (results : dict) :
  existsb is_subheader (flat_map word_calls results) = false
  /\ filter (fun c => is_text_area c || is_error c)
            (flat_map word_calls results) = [].
Proof.
  induction results as [|[word data] results [IH1 IH2]]; [now split|].
  cbn [flat_map]. rewrite existsb_app, filter_app, IH1, IH2.
  unfold word_calls. destruct (entry_sentences data) as [|x xs];
    [now split|].
  destruct (sentence_calls_plain (x :: xs) 1) as [H1 H2].
  cbn [existsb filter is_subheader is_text_area is_error orb].
  rewrite H1, H2. now split.
Qed.

Lemma article_calls_block (words : list str) (pubmed_id : str)
    (r : option str) :
  block_of pubmed_id (article_calls words pubmed_id r).
Proof.
  unfold article_calls. eexists. split; [reflexivity|].
  destruct (is_success r); [|now split].
  unfold analysis_calls.
  destruct (analyze_words_in_abstract r words) as [[|item results]|];
    try (now split).
  destruct (word_calls_plain (item :: results)) as [H1 H2].
  cbn [existsb filter is_subheader is_text_area is_error orb].
  rewrite H1, H2. now split.
Qed.


End DriverRuns.

Lemma subheaders_app (a b : list st_call) :
  subheaders (a ++ b) = subheaders a ++ subheaders b.
Proof. unfold subheaders. apply flat_map_app. Qed.

Lemma subheaders_none (page : list st_call) :
  existsb is_subheader page = false -> subheaders page = [].
Proof.
  induction page as [|c page IH]; [reflexivity|].
  simpl. destruct c; simpl; try exact IH. discriminate.
Qed.


(** C7. Two identifiers with the same abstract end the run. With article
    12345 listed twice and article 7 behind it, the abstract box of the
    second 12345 is the widget of the first, streamlit refuses it, and the
    exception leaves the handler: the page ends with the bare header of the
    second 12345, identifier 7 gets no block and is never requested. *)
Theorem repeated_abstract_aborts_run :
  on_analyze (one_article page_with_both)
             (lit "12345" ++ newline ++ lit "12345" ++ newline ++ lit "7")
             (lit "section") (Session [] [])
  = (inl duplicate_element_id,
     Session
       [article_url (lit "12345"); article_url (lit "12345")]
       [St_subheader (lit "PubMed ID: 12345");
        St_text_area (lit "Abstract") (lit "From the section.") 200;
        St_markdown (lit "**Word:** `section`  " ++ newline
                     ++ lit "Count: 1");
        St_markdown (lit "Sentences containing the word:");
        St_markdown (lit "1. From the section.");
        St_subheader (lit "PubMed ID: 12345")]).
Proof. reflexivity. Qed.

Lemma is_success_iff (r : option str) :
  is_success r = true
  <-> exists a, r = Some a /\ a <> [] /\ startswith (lit "Error") a = false.
Proof.
  split.
  - destruct r as [a|]; [|discriminate]. unfold is_success. intros H.
    apply andb_prop in H. destruct H as [Ha Hs].
    exists a. split; [reflexivity|]. split.
    + intros ->. discriminate Ha.
    + now apply negb_true_iff.
  - intros (a & -> & Hne & Hs). unfold is_success. rewrite Hs.
    destruct a; [congruence | reflexivity].
Qed.

(** C9. The driver takes the success path exactly when the fetch result is a
    non-empty string that does not start with "Error": it then calls
    [st.text_area] for the abstract, which shows the box, followed by the
    analysis (the one way this call fails is streamlit's refusal of a box
    that is on the page already, which ends the run behind the header); in
    every other case it shows the error notice. An error result of the
    fetcher starts with "Error", and that prefix is all that tells it from
    an abstract: the page whose abstract reads "Error rates fell by half."
    is fetched without any exception and still ends in the error notice. *)
Theorem success_path_iff_no_error_prefix {World Response : Type}
    (ext : externals World Response) (words : list str) (pubmed_id : str)
    (s : session World) :
  (forall r,
      is_success r = true
      <-> exists a,
          r = Some a /\ a <> [] /\ startswith (lit "Error") a = false)
  /\ (exists r w',
         get_pubmed_abstract ext pubmed_id (world s) = (inr r, w')
         /\ show_article ext words pubmed_id s
            = if is_success r then
                if text_area_shown (lit "Abstract") (text_of r) 200
                                   (screen s)
                then
                  (inl duplicate_element_id,
                   Session w'
                     (screen s
                      ++ [St_subheader (lit "PubMed ID: " ++ pubmed_id)]))
                else
                  (inr tt,
                   Session w'
                     (screen s
                      ++ St_subheader (lit "PubMed ID: " ++ pubmed_id)
                      :: St_text_area (lit "Abstract") (text_of r) 200
                      :: analysis_calls
                           (analyze_words_in_abstract r words)))
              else
                (inr tt,
                 Session w'
                   (screen s
                    ++ [St_subheader (lit "PubMed ID: " ++ pubmed_id);
                        St_error
                          (lit "Could not find the abstract for PubMed ID "
                           ++ pubmed_id ++ lit "." ++ newline
                           ++ text_of r)])))
  /\ (forall e, is_success (Some (error_prefix ++ e)) = false)
  /\ fetch_body (one_article page_error_rates) (lit "12345") []
     = (inr (Some (lit "Error rates fell by half.")),
        [article_url (lit "12345")])
  /\ show_article (one_article page_error_rates) [lit "rates"] (lit "12345")
                  (Session [] [])
     = (inr tt,
        Session [article_url (lit "12345")]
          [St_subheader (lit "PubMed ID: 12345");
           St_error (lit "Could not find the abstract for PubMed ID 12345."
                     ++ newline ++ lit "Error rates fell by half.")]).
Proof.
  split; [exact is_success_iff|].
  split.
  { destruct (get_pubmed_abstract_returns ext pubmed_id (world s))
      as (r & w' & Hfetch).
    exists r, w'. split; [exact Hfetch|].
    rewrite (show_article_run ext words pubmed_id s r w' Hfetch).
    unfold article_calls. destruct (is_success r); [|reflexivity].
    cbn [andb].
    destruct (text_area_shown (lit "Abstract") (text_of r) 200 (screen s));
      reflexivity. }
  split; [reflexivity|].
  split; reflexivity.
Qed.

Lemma success_path_iff_no_error_prefix_witness :
  exists a,
    Some (lit "Fine.") = Some a /\ a <> []
    /\ startswith (lit "Error") a = false.
Proof.
  apply (proj1 (proj1 (success_path_iff_no_error_prefix
                         (one_article page_error_rates) []
                         (lit "12345") (Session [] []))
                      (Some (lit "Fine.")))).
  reflexivity.
Defined.

(* ===================================================================== *)
(** ** Further properties of the analyzer *)
(* ===================================================================== *)

Lemma existsb_str_eqb_In (k : str) (ks : list str) :
  existsb (str_eqb k) ks = true <-> In k ks.
Proof.
  rewrite existsb_exists. split.
  - intros (x & Hx & E). apply str_eqb_eq in E. now subst x.
  - intros H. exists k. split; [exact H | apply str_eqb_refl].
Qed.

Lemma keys_dict_set (k : str) (v : entry) (d : dict) :
  keys (dict_set k v d)
  = if existsb (str_eqb k) (keys d) then keys d else keys d ++ [k].
Proof.
  induction d as [|[k' v'] d IH]; [reflexivity|].
  unfold keys in *. simpl. destruct (str_eqb k k') eqn:E; simpl;
    [reflexivity|].
  rewrite IH. now destruct (existsb (str_eqb k) (map fst d)).
Qed.

Lemma first_occurrences_In (k : str) (ks : list str) :
  In k (first_occurrences ks) <-> In k ks.
Proof.
  unfold first_occurrences.
  now rewrite <- in_rev, nodup_In, <- in_rev.
Qed.

Lemma first_occurrences_snoc (ks : list str) (k : str) :
  first_occurrences (ks ++ [k])
  = if existsb (str_eqb k) (first_occurrences ks)
    then first_occurrences ks else first_occurrences ks ++ [k].
Proof.
  unfold first_occurrences at 1. rewrite rev_app_distr. simpl.
  destruct (in_dec (list_eq_dec ascii_dec) k (rev ks)) as [Hin|Hout].
  - assert (E : existsb (str_eqb k) (first_occurrences ks) = true).
    { apply existsb_str_eqb_In, first_occurrences_In, in_rev. exact Hin. }
    now rewrite E.
  - destruct (existsb (str_eqb k) (first_occurrences ks)) eqn:E;
      [|reflexivity].
    elim Hout. apply in_rev. rewrite rev_involutive.
    apply first_occurrences_In, existsb_str_eqb_In. exact E.
Qed.

Lemma first_occurrences_NoDup (ks : list str) : NoDup (first_occurrences ks).
Proof.
  unfold first_occurrences. apply NoDup_rev, NoDup_nodup.
Qed.

Lemma first_occurrences_length (ks : list str) :
  length (first_occurrences ks) <= length ks.
Proof.
  induction ks as [|k ks IH] using rev_ind; [simpl; lia|].
  rewrite first_occurrences_snoc, length_app. simpl.
  destruct (existsb _ _); [lia | rewrite length_app; simpl; lia].
Qed.

Lemma fold_analyze_keys (abstract : str) (words : list str) :
  keys (fold_left (analyze_word (lower abstract) (re_split abstract))
                  words [])
  = first_occurrences (map lower words).
Proof.
  induction words as [|w words IH] using rev_ind; [reflexivity|].
  rewrite fold_left_app, map_app. simpl.
  rewrite analyze_word_eq, keys_dict_set, IH.
  now rewrite first_occurrences_snoc.
Qed.

Lemma dict_from_keys (abstract : str) (d : dict) :
  (forall k e, In (k, e) d -> e = entry_for abstract k) ->
  d = map (fun k => (k, entry_for abstract k)) (keys d).
Proof.
  induction d as [|[k e] d IH]; intros H; [reflexivity|].
  simpl. rewrite (H k e (or_introl eq_refl)). f_equal.
  apply IH. intros k' e' Hin. apply H. now right.
Qed.

Lemma dict_lookup_absent (k : str) (d : dict) :
  ~ In k (keys d) -> dict_lookup k d = None.
Proof.
  induction d as [|[k' v] d IH]; intros H; [reflexivity|].
  simpl in *. destruct (str_eqb k k') eqn:E.
  - apply str_eqb_eq in E. subst k'. elim H. now left.
  - apply IH. intros Hin. apply H. now right.
Qed.

(** X1. The result for a non-empty abstract holds one entry for each distinct
    lower-cased term, at the place where the term first occurs in the input;
    a repeated term (also in another casing) adds nothing. Each entry is the
    one computed from its key, and a key that is no lower-cased input term is
    not found. *)
Theorem analyze_result_shape (abstract : str) (words : list str) (d : dict) :
  abstract <> [] ->
  analyze_words_in_abstract (Some abstract) words = Some d ->
  d = map (fun k => (k, entry_for abstract k))
          (first_occurrences (map lower words))
  /\ NoDup (keys d)
  /\ (forall k, In k (keys d) <-> exists t, In t words /\ k = lower t)
  /\ length d <= length words
  /\ (forall k, (forall t, In t words -> k <> lower t) ->
                dict_lookup k d = None).
Proof.
  intros Hne Hd. rewrite (analyze_nonempty _ words Hne) in Hd.
  injection Hd as <-.
  set (d := fold_left (analyze_word (lower abstract) (re_split abstract))
                      words []).
  assert (Hkeys : keys d = first_occurrences (map lower words))
    by apply fold_analyze_keys.
  assert (Hin : forall k, In k (keys d) <-> exists t, In t words /\ k = lower t).
  { intros k. rewrite Hkeys, first_occurrences_In, in_map_iff.
    split; intros (t & H1 & H2); exists t; split; auto. }
  split.
  { rewrite <- Hkeys. apply dict_from_keys. intros k e He.
    destruct (fold_analyze_entries _ _ _ _ _ He) as [[]|E]. exact E. }
  split; [rewrite Hkeys; apply first_occurrences_NoDup|].
  split; [exact Hin|].
  split.
  { rewrite <- (length_map fst d). fold (keys d). rewrite Hkeys.
    rewrite <- (length_map lower words). apply first_occurrences_length. }
  intros k Hk. apply dict_lookup_absent. intros H.
  apply Hin in H. destruct H as (t & Ht & E). exact (Hk t Ht E).
Qed.

Lemma analyze_result_shape_witness :
  [(lit "a", Entry 2 [lit "A b."; lit "B a."]);
   (lit "b", Entry 2 [lit "A b."; lit "B a."])]
  = map (fun k => (k, entry_for (lit "A b. B a.") k))
        (first_occurrences (map lower [lit "a"; lit "B"; lit "A"])).
Proof.
  apply (analyze_result_shape (lit "A b. B a.") [lit "a"; lit "B"; lit "A"]).
  - discriminate.
  - reflexivity.
Defined.

Lemma startswith_length (w x : str) :
  startswith w x = true -> length w <= length x.
Proof.
  intros H. destruct (startswith_inv _ _ H) as [r ->].
  rewrite length_app. lia.
Qed.

Lemma occurs_at_contains (w s : str) (p : nat) :
  occurs_at w s p -> contains w s = true.
Proof.
  intros [_ H]. destruct (startswith_inv _ _ H) as [r E].
  rewrite <- (firstn_skipn p s), E. apply contains_intro.
Qed.

Lemma occurs_at_fits (w s : str) (p : nat) :
  occurs_at w s p -> p + length w <= length s.
Proof.
  intros [Hp H]. apply startswith_length in H.
  rewrite length_skipn in H. lia.
Qed.

Lemma count_positive_contains (s w : str) :
  1 <= count s w -> contains w s = true.
Proof.
  intros H.
  destruct (count_is_number_of_occurrences s w) as [(ps & [_ Hocc] & Hlen) _].
  destruct ps as [|p ps]; [simpl in Hlen; lia|].
  inversion Hocc; subst. eapply occurs_at_contains; eauto.
Qed.

Lemma spaced_room (w : str) (n : nat) (ps : list nat) :
  w <> [] ->
  forall lo,
    spaced w lo ps -> Forall (fun p => p + length w <= n) ps ->
    length ps * length w <= n - lo.
Proof.
  intros Hne. assert (Hw : 1 <= length w)
    by (destruct w; [congruence | simpl; lia]).
  induction ps as [|p ps IH]; intros lo Hsp Hfit; [simpl; lia|].
  destruct Hsp as [Hp Hsp]. inversion Hfit as [|? ? Hpfit Hfit']; subst.
  specialize (IH _ Hsp Hfit').
  replace (Nat.max 1 (length w)) with (length w) in IH by lia.
  simpl length. lia.
Qed.

(** Non-overlapping occurrences fit into the text. *)
Lemma count_room (s w : str) : count s w * length w <= length s.
Proof.
  destruct w as [|a w]; [simpl; lia|].
  destruct (count_is_number_of_occurrences s (a :: w))
    as [(ps & [Hsp Hocc] & <-) _].
  assert (H : length ps * length (a :: w) <= length s - 0); [|lia].
  apply spaced_room; [discriminate | exact Hsp|].
  eapply Forall_impl; [|exact Hocc]. intros p. apply occurs_at_fits.
Qed.

Lemma lower_length (s : str) : length (lower s) = length s.
Proof. apply length_map. Qed.

(** X2. For a non-empty abstract and a term of the list, the stored count is
    0 exactly when the lower-cased term does not occur in the lower-cased
    abstract, and the counted occurrences fit into the text they are counted
    in: count times the length of the lower-cased term is at most the length
    of the lower-cased abstract. *)
Theorem analyze_count_zero_and_bound (abstract : str) (words : list str)
    (t : str) (d : dict) (e : entry) :
  abstract <> [] -> In t words ->
  analyze_words_in_abstract (Some abstract) words = Some d ->
  dict_lookup (lower t) d = Some e ->
  (entry_count e = 0 <-> contains (lower t) (lower abstract) = false)
  /\ entry_count e * length (lower t) <= length (lower abstract).
Proof.
  intros Hne Hin Hd He.
  destruct (analyze_entry abstract words t Hne Hin) as (d' & Hd' & He').
  rewrite Hd in Hd'. injection Hd' as <-. rewrite He in He'.
  injection He' as ->. simpl entry_count. split.
  - split.
    + intros H0. destruct (contains (lower t) (lower abstract)) eqn:E;
        [|reflexivity].
      apply contains_count in E. lia.
    + intros Hno. destruct (count (lower abstract) (lower t)) eqn:E;
        [reflexivity|].
      assert (H1 : 1 <= count (lower abstract) (lower t)) by lia.
      apply count_positive_contains in H1. congruence.
  - apply count_room.
Qed.

Lemma analyze_count_zero_and_bound_witness :
  (entry_count (Entry 0 []) = 0
   <-> contains (lower (lit "Dog")) (lower (lit "A cat.")) = false)
  /\ entry_count (Entry 0 []) * length (lower (lit "Dog"))
     <= length (lower (lit "A cat.")).
Proof.
  apply (analyze_count_zero_and_bound
           (lit "A cat.") [lit "Dog"] (lit "Dog")
           [(lit "dog", Entry 0 [])] (Entry 0 [])).
  - discriminate.
  - simpl. auto.
  - reflexivity.
  - reflexivity.
Defined.

Lemma contains_nil (s : str) : contains [] s = true.
Proof. now destruct s. Qed.

Lemma no_space_lower (w : str) : no_space w = true -> no_space (lower w) = true.
Proof.
  unfold no_space, lower. induction w as [|c w IH]; [trivial|].
  simpl. rewrite isspace_lower_char. intros H. apply andb_prop in H.
  destruct H as [-> H]. now apply IH.
Qed.

Lemma no_space_In (w : str) (c : ascii) :
  no_space w = true -> In c w -> isspace c = false.
Proof.
  unfold no_space. rewrite forallb_forall. intros H Hc.
  apply negb_true_iff. now apply H.
Qed.

(** A term without white space does not reach across a white-space
    character. *)
Lemma contains_across_space (w x y : str) (c : ascii) :
  no_space w = true -> isspace c = true ->
  contains w (x ++ c :: y) = true ->
  contains w x = true \/ contains w y = true.
Proof.
  intros Hw Hc H. destruct (contains_inv _ _ H) as (l & r & E).
  apply app_eq_app in E. destruct E as (m & [[Ex Ew]|[El Ey]]).
  - apply app_eq_app in Ew.
    destruct Ew as (m2 & [[Ew Ecy]|[Em Er]]).
    2:{ left. rewrite Ex, Em. apply contains_intro. }
    destruct m2 as [|c' m2].
    +
      left. rewrite app_nil_r in Ew. subst m. rewrite Ex.
      rewrite <- (app_nil_r w) at 2. apply contains_intro.
    + injection Ecy as <- _. exfalso.
      assert (Hin : In c w) by (rewrite Ew; apply in_or_app; right; now left).
      rewrite (no_space_In w c Hw Hin) in Hc. discriminate.
  - destruct m as [|c' m].
    + destruct w as [|a w]; [left; apply contains_nil|].
      injection Ey as -> _. exfalso.
      rewrite (no_space_In (a :: w) a Hw (or_introl eq_refl)) in Hc.
      discriminate.
    + injection Ey as _ ->. right. apply contains_intro.
Qed.

Lemma contains_across_sep (w x sep y : str) :
  no_space w = true -> sep <> [] -> forallb isspace sep = true ->
  contains w (x ++ sep ++ y) = true ->
  contains w x = true \/ contains w y = true.
Proof.
  intros Hw Hne Hsep H. destruct sep as [|c sep]; [congruence|].
  simpl in Hsep. apply andb_prop in Hsep. destruct Hsep as [Hc Hsep].
  destruct (contains_across_space w x (sep ++ y) c Hw Hc H) as [Hx|Hy];
    [now left|].
  destruct w as [|a w]; [left; apply contains_nil|].
  right. apply contains_behind_space with (x := sep); try assumption.
  - discriminate.
  - simpl. exact (no_space_In (a :: w) a Hw (or_introl eq_refl)).
Qed.

Lemma sentences_of_contains (w a : str) (ps : list str) :
  no_space w = true ->
  sentences_of a ps ->
  contains w (lower a) = true ->
  exists p, In p ps /\ contains w (lower p) = true.
Proof.
  intros Hw. induction 1 as [p Hp|p sep rest ps Hp Hend Hne Hsep Hrest Hs IH];
    intros H.
  - exists p. split; [now left | exact H].
  - rewrite !lower_app in H.
    apply contains_across_sep in H; try assumption.
    + destruct H as [H|H].
      * exists p. split; [now left | exact H].
      * destruct (IH H) as (q & Hq & Hc). exists q. split; [now right|exact Hc].
    + intros E. apply Hne. destruct sep; [reflexivity | discriminate E].
    + now apply forallb_isspace_lower.
Qed.

(** X3. For a term without white space the converse of C10 holds as well: in
    the result for a non-empty abstract, its count is at least 1 exactly when
    it has a matching sentence. A term with white space in it can be counted
    across a sentence break and match no sentence: ". b" in "a. b". *)
Theorem analyze_count_iff_sentences :
  (forall (abstract : str) (words : list str) (t : str) (d : dict)
          (e : entry),
      abstract <> [] -> In t words -> no_space t = true ->
      analyze_words_in_abstract (Some abstract) words = Some d ->
      dict_lookup (lower t) d = Some e ->
      (1 <= entry_count e <-> entry_sentences e <> []))
  /\ analyze_words_in_abstract (Some (lit "a. b")) [lit ". b"]
     = Some [(lit ". b", Entry 1 [])].
Proof.
  split; [|reflexivity].
  intros abstract words t d e Hne Hin Hns Hd He.
  destruct (analyze_entry abstract words t Hne Hin) as (d' & Hd' & He').
  rewrite Hd in Hd'. injection Hd' as <-. rewrite He in He'.
  injection He' as ->. simpl. rewrite containing_sentences_filter.
  split.
  - intros H. apply count_positive_contains in H.
    destruct (sentences_of_contains (lower t) abstract (re_split abstract)
                (no_space_lower t Hns) (re_split_sound abstract) H)
      as (p & Hp & Hc).
    assert (Hf : In p (filter (fun s => contains (lower t) (lower s))
                              (re_split abstract)))
      by (apply filter_In; now split).
    destruct (filter _ _); [destruct Hf | discriminate].
  - intros H.
    destruct (filter (fun s => contains (lower t) (lower s))
                     (re_split abstract)) as [|p ps] eqn:E; [now elim H|].
    assert (Hf : In p (filter (fun s => contains (lower t) (lower s))
                              (re_split abstract)))
      by (rewrite E; now left).
    apply filter_In in Hf. destruct Hf as [Hp Hc].
    destruct (sentences_of_part _ _ (re_split_sound abstract) _ Hp)
      as (l & r & Habs).
    apply contains_count. rewrite Habs at 1. now apply contains_lower_part.
Qed.

Lemma analyze_count_iff_sentences_witness :
  1 <= entry_count (Entry 1 [lit "Dogs bark."])
  <-> entry_sentences (Entry 1 [lit "Dogs bark."]) <> [].
Proof.
  apply (proj1 analyze_count_iff_sentences
               (lit "Cats mew. Dogs bark.") [lit "BARK"] (lit "BARK")
               [(lit "bark", Entry 1 [lit "Dogs bark."])]
               (Entry 1 [lit "Dogs bark."])).
  - discriminate.
  - simpl. auto.
  - reflexivity.
  - reflexivity.
  - reflexivity.
Defined.

Lemma squeeze_app (a b : str) : squeeze (a ++ b) = squeeze a ++ squeeze b.
Proof. apply filter_app. Qed.

Lemma squeeze_space (sep : str) :
  forallb isspace sep = true -> squeeze sep = [].
Proof.
  induction sep as [|c sep IH]; [reflexivity|].
  simpl. intros H. apply andb_prop in H. destruct H as [-> H]. now apply IH.
Qed.

Lemma sentences_of_nonempty (a : str) (ps : list str) :
  sentences_of a ps -> ps <> [].
Proof. destruct 1; discriminate. Qed.

Lemma sentences_of_shape (a : str) (ps : list str) :
  sentences_of a ps ->
  squeeze (concat ps) = squeeze a
  /\ Forall (fun p => has_break p = false) ps
  /\ (forall p, In p (removelast ps) ->
                p <> [] /\ lookbehind (last_char p) = true).
Proof.
  induction 1 as [p Hp|p sep rest ps Hp Hend Hne Hsep Hrest Hs (IH1 & IH2 & IH3)].
  - simpl. rewrite app_nil_r. split; [reflexivity|].
    split; [now constructor | intros q []].
  - split; [|split].
    + simpl concat. rewrite !squeeze_app, IH1, (squeeze_space sep Hsep).
      reflexivity.
    + now constructor.
    + intros q Hq.
      destruct ps as [|p' ps]; [now apply sentences_of_nonempty in Hs|].
      change (removelast (p :: p' :: ps)) with (p :: removelast (p' :: ps))
        in Hq.
      destruct Hq as [<-|Hq]; [|now apply IH3].
      split; [|exact Hend]. intros ->. discriminate Hend.
Qed.

(** X4. Cutting a text into sentences drops white space only: the characters
    of the sentences other than white space are, in order, those of the text.
    There is always at least one sentence; a text in which no [.], [!] or [?]
    is followed by white space is returned whole, as one sentence; no
    sentence has such a place inside it; and every sentence but the last is
    non-empty and ends with one of the three marks. *)
Theorem re_split_drops_only_space (s : str) :
  squeeze (concat (re_split s)) = squeeze s
  /\ re_split s <> []
  /\ (has_break s = false -> re_split s = [s])
  /\ Forall (fun p => has_break p = false) (re_split s)
  /\ (forall p, In p (removelast (re_split s)) ->
                p <> [] /\ lookbehind (last_char p) = true).
Proof.
  pose proof (re_split_sound s) as Hs.
  destruct (sentences_of_shape _ _ Hs) as (H1 & H2 & H3).
  split; [exact H1|].
  split; [now apply sentences_of_nonempty in Hs|].
  split; [|split; assumption].
  intros Hnb. symmetry. apply re_split_complete. now constructor.
Qed.

Lemma re_split_drops_only_space_witness :
  re_split (lit "e.g.this is 1.5 long") = [lit "e.g.this is 1.5 long"]
  /\ lit "No." <> []
  /\ lookbehind (last_char (lit "No.")) = true.
Proof.
  split.
  - apply (re_split_drops_only_space (lit "e.g.this is 1.5 long")).
    reflexivity.
  - apply (re_split_drops_only_space (lit "No.  Yes")). simpl. auto.
Defined.

Lemma lower_char_idempotent (c : ascii) :
  lower_char (lower_char c) = lower_char c.
Proof. destruct c as [[] [] [] [] [] [] [] []]; reflexivity. Qed.

Lemma lower_idempotent (s : str) : lower (lower s) = lower s.
Proof.
  unfold lower. rewrite map_map. apply map_ext. apply lower_char_idempotent.
Qed.

Lemma is_end_punct_lower_char (c : ascii) :
  is_end_punct (lower_char c) = is_end_punct c.
Proof. destruct c as [[] [] [] [] [] [] [] []]; reflexivity. Qed.

Lemma lstrip_lower (s : str) : lstrip (lower s) = lower (lstrip s).
Proof.
  induction s as [|c s IH]; [reflexivity|].
  simpl. rewrite isspace_lower_char. now destruct (isspace c).
Qed.

Lemma strip_lower (s : str) : strip (lower s) = lower (strip s).
Proof.
  unfold strip, rstrip, lower.
  fold (lower s). rewrite lstrip_lower. unfold lower.
  rewrite <- map_rev. fold (lower (rev (lstrip s))).
  rewrite lstrip_lower. unfold lower. now rewrite map_rev.
Qed.

Lemma re_split_go_lower (s : str) :
  forall prev in_match acc,
    re_split_go (option_map lower_char prev) in_match (lower acc) (lower s)
    = map lower (re_split_go prev in_match acc s).
Proof.
  induction s as [|c s IH]; intros prev in_match acc.
  - simpl. unfold lower. now rewrite map_rev.
  - simpl. rewrite isspace_lower_char.
    assert (Hlb : lookbehind (option_map lower_char prev) = lookbehind prev)
      by (destruct prev; [apply is_end_punct_lower_char | reflexivity]).
    rewrite Hlb.
    destruct (in_match && isspace c).
    + apply (IH (Some c) true acc).
    + destruct (lookbehind prev && isspace c).
      * simpl. f_equal; [unfold lower; now rewrite map_rev|].
        apply (IH (Some c) true []).
      * apply (IH (Some c) false (c :: acc)).
Qed.

Lemma re_split_lower (s : str) : re_split (lower s) = map lower (re_split s).
Proof. apply (re_split_go_lower s None false []). Qed.

Lemma containing_sentences_lower (word : str) (sentences : list str) :
  containing_sentences word (map lower sentences)
  = map lower (containing_sentences word sentences).
Proof.
  induction sentences as [|s ss IH]; [reflexivity|].
  simpl. rewrite lower_idempotent, strip_lower, IH.
  now destruct (contains word (lower s)).
Qed.

Lemma entry_for_lower (abstract word : str) :
  entry_for (lower abstract) word = lower_sentences (entry_for abstract word).
Proof.
  unfold entry_for, lower_sentences. simpl.
  now rewrite lower_idempotent, re_split_lower, containing_sentences_lower.
Qed.

Lemma dict_set_lower_results (k : str) (v : entry) (d : dict) :
  dict_set k (lower_sentences v) (lower_results d)
  = lower_results (dict_set k v d).
Proof.
  induction d as [|[k' v'] d IH]; [reflexivity|].
  simpl. destruct (str_eqb k k'); simpl; [reflexivity|].
  f_equal. exact IH.
Qed.

Lemma fold_analyze_lower (abstract : str) (words : list str) :
  forall d0,
    fold_left (analyze_word (lower (lower abstract))
                            (re_split (lower abstract)))
              words (lower_results d0)
    = lower_results
        (fold_left (analyze_word (lower abstract) (re_split abstract))
                   words d0).
Proof.
  induction words as [|w words IH]; intros d0; [reflexivity|].
  simpl fold_left. rewrite <- IH. f_equal.
  rewrite !analyze_word_eq, entry_for_lower. apply dict_set_lower_results.
Qed.

Lemma fold_analyze_terms_lower (abstract : str) (words : list str) :
  forall d0,
    fold_left (analyze_word (lower abstract) (re_split abstract))
              (map lower words) d0
    = fold_left (analyze_word (lower abstract) (re_split abstract))
                words d0.
Proof.
  induction words as [|w words IH]; intros d0; [reflexivity|].
  simpl. rewrite IH. f_equal.
  unfold analyze_word. now rewrite lower_idempotent.
Qed.

(** X5. The analysis is case-insensitive. Lower-casing the abstract changes
    nothing in the result but the casing of the sentences it lists: keys,
    order and counts stay, and each listed sentence is the lower-cased one.
    Lower-casing the terms changes nothing at all. *)
Theorem analyze_case_insensitive (abstract : option str)
    (words : list str) :
  analyze_words_in_abstract (option_map lower abstract) words
  = option_map lower_results (analyze_words_in_abstract abstract words)
  /\ analyze_words_in_abstract abstract (map lower words)
     = analyze_words_in_abstract abstract words.
Proof.
  destruct abstract as [[|c a]|]; [now split | | now split].
  split.
  - simpl option_map. rewrite !analyze_nonempty by discriminate.
    simpl option_map. f_equal. apply (fold_analyze_lower (c :: a) words []).
  - rewrite !analyze_nonempty by discriminate. f_equal.
    apply fold_analyze_terms_lower.
Qed.

(* ===================================================================== *)
(** ** Further properties of the fetcher *)
(* ===================================================================== *)

Lemma method1_trimmed (soup : node) (prev : option str) :
  trimmed_opt prev -> trimmed_opt (method1 soup prev).
Proof.
  unfold method1. destruct (find _ _ soup); [|trivial].
  intros _ a [= <-]. apply strip_idempotent.
Qed.

Lemma method_meta_trimmed (name : str) (soup : node) (prev : option str) :
  trimmed_opt prev -> trimmed_opt (method_meta name soup prev).
Proof.
  unfold method_meta. destruct (find _ _ soup); [|trivial].
  intros _ a [= <-]. apply strip_idempotent.
Qed.

Lemma method4_result (soup : node) (prev : option str) (a : str) :
  method4 soup prev = Some a ->
  prev = Some a \/ (strip a = a /\ 100 < length a).
Proof.
  unfold method4. rewrite method4_loop_find.
  destruct (List.find _ _) as [p|] eqn:E; [|now left].
  intros [= <-]. right. apply find_some in E. destruct E as [_ E].
  unfold looks_like_abstract in E. apply andb_prop in E.
  destruct E as [E _]. apply Nat.ltb_lt in E.
  split; [apply strip_idempotent | exact E].
Qed.

Lemma up_to_method3_trimmed (soup : node) :
  trimmed_opt (abstract (up_to_method3 soup)).
Proof.
  rewrite up_to_method3_cases. cbv zeta.
  assert (H1 : trimmed_opt (method1 soup None))
    by (apply method1_trimmed; intros a; discriminate).
  assert (H2 : trimmed_opt (method2 soup (method1 soup None)))
    by now apply method_meta_trimmed.
  assert (H3 : trimmed_opt (method3 soup (method2 soup (method1 soup None))))
    by now apply method_meta_trimmed.
  destruct (truthy_opt (method1 soup None)); [exact H1|].
  destruct (truthy_opt (method2 soup (method1 soup None))); assumption.
Qed.

(** X6. Whatever the page, an abstract that the extraction returns is
    trimmed: it has no white space at either end. When methods 1 to 3 found
    nothing, a non-empty result is longer than 100 characters. *)
Theorem extract_result_is_trimmed (soup : node) (a : str) :
  abstract (extract soup) = Some a ->
  strip a = a
  /\ (truthy_opt (abstract (up_to_method3 soup)) = false -> a <> [] ->
      100 < length a).
Proof.
  intros H. pose proof (up_to_method3_trimmed soup) as Htrim.
  unfold extract in H.
  destruct (truthy_opt (abstract (up_to_method3 soup))) eqn:E.
  - rewrite if_not_abstract_found in H by exact E.
    split; [now apply Htrim | discriminate].
  - rewrite if_not_abstract_run in H by exact E.
    unfold attempt in H. simpl abstract in H.
    destruct (method4_result _ _ _ H) as [Hprev|[Hs Hlen]].
    + split; [now apply Htrim|]. intros _ Hne.
      rewrite Hprev in E. destruct a; [congruence | discriminate E].
    + split; [exact Hs | intros _ _; exact Hlen].
Qed.

Lemma extract_result_is_trimmed_witness :
  strip (lit "From the section.") = lit "From the section."
  /\ (truthy_opt (abstract (up_to_method3 page_with_abstract_id)) = false ->
      long_text <> [] -> 100 < length long_text).
Proof.
  split.
  - apply (extract_result_is_trimmed page_with_both). reflexivity.
  - apply (extract_result_is_trimmed page_with_abstract_id). reflexivity.
Defined.

(** X7. The extraction returns the absent value exactly when the page has
    none of the things the four methods look for: no [div] of class
    [abstract], no [meta] named [description] or [citation_abstract], and no
    paragraph that passes the test of method 4. An element that is found but
    holds no text gives the empty string instead. *)
Theorem extract_none_iff_nothing_found (soup : node) :
  abstract (extract soup) = None
  <-> abstract_section soup = None
      /\ meta_named (lit "description") soup = None
      /\ meta_named (lit "citation_abstract") soup = None
      /\ abstract_paragraph soup = None.
Proof.
  rewrite extract_cases. cbv zeta.
  unfold method4. rewrite !method4_loop_find.
  unfold method3, method2, method_meta, method1.
  unfold abstract_section, meta_named, abstract_paragraph.
  destruct (find (lit "div") (has_class (lit "abstract")) soup) as [d|];
    destruct (find (lit "meta") (attr_is (lit "name") (lit "description"))
                   soup) as [m2|];
    destruct (find (lit "meta")
                   (attr_is (lit "name") (lit "citation_abstract")) soup)
      as [m3|];
    destruct (List.find _ (find_all (lit "p") soup)) as [p|];
    repeat match goal with
           | |- context [truthy_opt (Some ?x)] =>
             destruct (truthy_opt (Some x))
           end;
    simpl; split; try discriminate; try tauto;
    intros (H1 & H2 & H3 & H4); discriminate.
Qed.

Lemma extract_none_iff_nothing_found_witness :
  abstract_section page_with_abstract_text_class = None
  /\ meta_named (lit "description") page_with_abstract_text_class = None
  /\ meta_named (lit "citation_abstract") page_with_abstract_text_class = None
  /\ abstract_paragraph page_with_abstract_text_class = None.
Proof.
  apply (proj1 (extract_none_iff_nothing_found
                  page_with_abstract_text_class)).
  reflexivity.
Defined.

(* ===================================================================== *)
(** ** Further properties of the driver *)
(* ===================================================================== *)

Lemma split_go_no_sep (sep : ascii) (s : str) :
  forall acc,
    ~ In sep acc -> Forall (fun p => ~ In sep p) (split_go sep acc s).
Proof.
  induction s as [|c s IH]; intros acc Hacc; simpl.
  - constructor; [|constructor]. now rewrite <- in_rev.
  - destruct (Ascii.eqb c sep) eqn:E.
    + constructor; [now rewrite <- in_rev | apply IH; intros []].
    + apply IH. intros [->|H]; [|now apply Hacc].
      now rewrite Ascii.eqb_refl in E.
Qed.

Lemma split_go_from_text (sep : ascii) (s : str) :
  forall acc p c,
    In p (split_go sep acc s) -> In c p -> In c acc \/ In c s.
Proof.
  induction s as [|a s IH]; intros acc p c Hp Hc; simpl in Hp.
  - destruct Hp as [<-|[]]. left. now apply in_rev.
  - destruct (Ascii.eqb a sep).
    + destruct Hp as [<-|Hp]; [left; now apply in_rev|].
      destruct (IH [] p c Hp Hc) as [[]|H]. right. now right.
    + destruct (IH (a :: acc) p c Hp Hc) as [[->|H]|H].
      * right. now left.
      * now left.
      * right. now right.
Qed.

Lemma split_go_covers (sep : ascii) (s : str) (c : ascii) :
  c <> sep ->
  forall acc,
    In c acc \/ In c s ->
    exists p, In p (split_go sep acc s) /\ In c p.
Proof.
  intros Hc. induction s as [|a s IH]; intros acc H; simpl.
  - destruct H as [H|[]]. exists (rev acc). split; [now left|].
    now apply in_rev in H.
  - destruct (Ascii.eqb a sep) eqn:E.
    + destruct H as [H|[->|H]].
      * exists (rev acc). split; [now left | now apply in_rev in H].
      * apply Ascii.eqb_eq in E. contradiction.
      * destruct (IH [] (or_intror H)) as (p & Hp & Hin).
        exists p. split; [now right | exact Hin].
    + apply IH. destruct H as [H|[->|H]].
      * left. now right.
      * left. now left.
      * now right.
Qed.

Lemma strip_In (s : str) (c : ascii) : In c (strip s) -> In c s.
Proof.
  intros H. destruct (strip_part s) as (l & r & E & _ & _).
  rewrite E. apply in_or_app. right. apply in_or_app. now left.
Qed.

Lemma strip_keeps (s : str) (c : ascii) :
  isspace c = false -> In c s -> In c (strip s).
Proof.
  intros Hc H. destruct (strip_part s) as (l & r & E & Hl & Hr).
  rewrite E in H. rewrite forallb_forall in Hl, Hr.
  apply in_app_or in H. destruct H as [H|H];
    [apply Hl in H; congruence|].
  apply in_app_or in H. destruct H as [H|H]; [exact H|].
  apply Hr in H. congruence.
Qed.

Lemma strip_empty_iff (s : str) :
  strip s = [] <-> forallb isspace s = true.
Proof.
  split.
  - intros E. apply forallb_forall. intros c Hc.
    destruct (isspace c) eqn:Hsp; [reflexivity|].
    pose proof (strip_keeps s c Hsp Hc) as H. rewrite E in H. destruct H.
  - intros H. destruct (strip s) as [|c t] eqn:E; [reflexivity|].
    assert (Hc : In c s) by (apply strip_In; rewrite E; now left).
    assert (Hsp : isspace c = true)
      by (rewrite forallb_forall in H; now apply H).
    pose proof (rstrip_tight (lstrip s) (lstrip_tight s)) as Ht.
    fold (strip s) in Ht. rewrite E in Ht. simpl in Ht. congruence.
Qed.

(** The parts kept by [[x.strip() for x in s.split(sep) if x.strip()]]:
    none is kept exactly when [s] holds only white space and separators. *)
Lemma stripped_nonempty_split_nil (sep : ascii) (s : str) :
  stripped_nonempty (split sep s) = []
  <-> forallb (fun c => isspace c || Ascii.eqb c sep) s = true.
Proof.
  unfold stripped_nonempty, split. split.
  - intros E. apply forallb_forall. intros c Hc.
    destruct (isspace c) eqn:Hsp; [reflexivity|]. simpl.
    destruct (Ascii.eqb c sep) eqn:Hsep; [reflexivity|]. exfalso.
    apply Ascii.eqb_neq in Hsep.
    destruct (split_go_covers sep s c Hsep [] (or_intror Hc))
      as (p & Hp & Hin).
    assert (Hkeep : In p (filter (fun x => truthy (strip x))
                                 (split_go sep [] s))).
    { apply filter_In. split; [exact Hp|].
      pose proof (strip_keeps p c Hsp Hin) as H.
      destruct (strip p); [destruct H | reflexivity]. }
    apply (in_map strip) in Hkeep. rewrite E in Hkeep. destruct Hkeep.
  - intros H. rewrite forallb_forall in H.
    destruct (filter _ _) as [|p ps] eqn:E; [reflexivity|]. exfalso.
    assert (Hp : In p (filter (fun x => truthy (strip x))
                              (split_go sep [] s)))
      by (rewrite E; now left).
    apply filter_In in Hp. destruct Hp as [Hp Ht].
    assert (Hall : forallb isspace p = true).
    { apply forallb_forall. intros c Hc.
      destruct (split_go_from_text sep s [] p c Hp Hc) as [[]|Hs].
      specialize (H c Hs). apply orb_prop in H. destruct H as [H|H];
        [exact H|].
      apply Ascii.eqb_eq in H. subst c.
      pose proof (split_go_no_sep sep s [] (fun f => f)) as Hno.
      rewrite Forall_forall in Hno. elim (Hno p Hp Hc). }
    apply strip_empty_iff in Hall. rewrite Hall in Ht. discriminate.
Qed.

Lemma stripped_nonempty_split_clean (sep : ascii) (s : str) :
  Forall (fun x => x <> [] /\ strip x = x /\ ~ In sep x)
         (stripped_nonempty (split sep s)).
Proof.
  apply Forall_forall. intros x Hx.
  destruct (stripped_nonempty_fixed _ _ Hx) as [E Hne].
  split; [exact Hne|]. split; [exact E|].
  unfold stripped_nonempty in Hx. apply in_map_iff in Hx.
  destruct Hx as (y & <- & Hy). apply filter_In in Hy. destruct Hy as [Hy _].
  intros Hin. apply strip_In in Hin.
  pose proof (split_go_no_sep sep s [] (fun f => f)) as Hno.
  rewrite Forall_forall in Hno. exact (Hno y Hy Hin).
Qed.

(** X8. What the handler passes on from its two input boxes: every
    identifier is non-empty, trimmed and free of line breaks, every term is
    non-empty, trimmed and free of commas. There is no identifier exactly
    when the identifier box holds only white space, and no term exactly when
    the term box holds only white space and commas. *)
Theorem handler_input_is_clean (pubmed_ids_input words_input : str) :
  Forall (fun pubmed_id =>
            pubmed_id <> [] /\ strip pubmed_id = pubmed_id
            /\ ~ In "010"%char pubmed_id)
         (parse_pubmed_ids pubmed_ids_input)
  /\ Forall (fun w => w <> [] /\ strip w = w /\ ~ In ","%char w)
            (parse_words words_input)
  /\ (parse_pubmed_ids pubmed_ids_input = []
      <-> forallb isspace pubmed_ids_input = true)
  /\ (parse_words words_input = []
      <-> forallb (fun c => isspace c || Ascii.eqb c ","%char) words_input
          = true).
Proof.
  split; [apply stripped_nonempty_split_clean|].
  split; [apply stripped_nonempty_split_clean|].
  split; [|apply stripped_nonempty_split_nil].
  unfold parse_pubmed_ids. rewrite stripped_nonempty_split_nil.
  rewrite <- strip_empty_iff. split.
  - intros H. destruct (strip pubmed_ids_input) as [|c t] eqn:E;
      [reflexivity|].
    pose proof (rstrip_tight (lstrip pubmed_ids_input)
                             (lstrip_tight pubmed_ids_input)) as Ht.
    fold (strip pubmed_ids_input) in Ht. rewrite E in Ht. simpl in Ht.
    simpl in H. rewrite Ht in H. simpl in H.
    apply andb_prop in H. destruct H as [H _].
    apply Ascii.eqb_eq in H. subst c. discriminate Ht.
  - now intros ->.
Qed.

Lemma handler_input_is_clean_witness :
  parse_pubmed_ids (lit "  " ++ newline ++ lit " ") = [].
Proof.
  apply (handler_input_is_clean (lit "  " ++ newline ++ lit " ") (lit "")).
  reflexivity.
Defined.

Lemma for_each_nil_run {S A : Type} (body : A -> M S unit) (s : S) :
  for_each [] body s = (inr tt, s).
Proof. reflexivity. Qed.

(** X9. With only white space in the identifier box the handler does
    nothing: it ends at once, shows nothing and leaves the outside world
    untouched (no request is made), whatever the terms. *)
Theorem blank_identifiers_do_nothing {World Response : Type}
    (ext : externals World Response) (pubmed_ids_input words_input : str)
    (s : session World) :
  forallb isspace pubmed_ids_input = true ->
  on_analyze ext pubmed_ids_input words_input s = (inr tt, s).
Proof.
  intros H. unfold on_analyze, parse_pubmed_ids.
  apply strip_empty_iff in H. rewrite H. reflexivity.
Qed.

Lemma blank_identifiers_do_nothing_witness :
  on_analyze (one_article page_with_both) (lit "  " ++ newline)
             (lit "section") (Session [] [])
  = (inr tt, Session [] []).
Proof.
  apply (blank_identifiers_do_nothing (one_article page_with_both)).
  reflexivity.
Defined.

(** X10. A failed or fruitless fetch ends in the error notice alone. If the
    [try] block raises, the block of the identifier is its header and an
    error notice that names the identifier and carries
    "Error fetching PubMed article: " with the exception's text. If the
    block returns no abstract or an empty one, the notice names the
    identifier and carries no message. The analyzer is not run in either
    case. *)
Theorem failed_fetch_is_shown {World Response : Type}
    (ext : externals World Response) (words : list str) (pubmed_id : str)
    (s : session World) :
  (forall e w',
      fetch_body ext pubmed_id (world s) = (inl e, w') ->
      show_article ext words pubmed_id s
      = (inr tt,
         Session w'
           (screen s
            ++ [St_subheader (lit "PubMed ID: " ++ pubmed_id);
                St_error (lit "Could not find the abstract for PubMed ID "
                          ++ pubmed_id ++ lit "." ++ newline
                          ++ error_prefix ++ e)])))
  /\ (forall r w',
         fetch_body ext pubmed_id (world s) = (inr r, w') ->
         truthy_opt r = false ->
         show_article ext words pubmed_id s
         = (inr tt,
            Session w'
              (screen s
               ++ [St_subheader (lit "PubMed ID: " ++ pubmed_id);
                   St_error (lit "Could not find the abstract for PubMed ID "
                             ++ pubmed_id ++ lit "." ++ newline)]))).
Proof.
  split.
  - intros e w' H.
    rewrite (show_article_run ext words pubmed_id s
               (Some (error_prefix ++ e)) w');
      [reflexivity|].
    now rewrite get_pubmed_abstract_unfold, H.
  - intros r w' H Hr.
    rewrite (show_article_run ext words pubmed_id s r w');
      [|now rewrite get_pubmed_abstract_unfold, H].
    unfold article_calls.
    destruct r as [[|c a]|]; try discriminate Hr; reflexivity.
Qed.

Lemma failed_fetch_is_shown_witness :
  show_article (one_article page_with_both) [lit "x"] (lit "9")
               (Session [] [])
  = (inr tt,
     Session [article_url (lit "9")]
       ([] ++ [St_subheader (lit "PubMed ID: " ++ lit "9");
               St_error (lit "Could not find the abstract for PubMed ID "
                         ++ lit "9" ++ lit "." ++ newline
                         ++ error_prefix ++ lit "404 Error for url")])).
Proof.
  apply (proj1 (failed_fetch_is_shown (one_article page_with_both)
                                      [lit "x"] (lit "9") (Session [] []))).
  reflexivity.
Defined.

Lemma sentence_calls_markdown (sentences : list str) :
  forall i c, In c (sentence_calls i sentences) -> exists b, c = St_markdown b.
Proof.
  induction sentences as [|x xs IH]; intros i c H; [destruct H|].
  destruct H as [<-|H]; [eauto | now apply (IH (S i))].
Qed.

Lemma word_calls_markdown (d : dict) (c : st_call) :
  In c (flat_map word_calls d) -> exists b, c = St_markdown b.
Proof.
  intros H. apply in_flat_map in H. destruct H as ([word data] & _ & H).
  unfold word_calls in H. destruct H as [<-|H]; [eauto|].
  destruct (entry_sentences data) as [|x xs].
  - destruct H as [<-|[]]. eauto.
  - destruct H as [<-|H]; [eauto|].
    now apply sentence_calls_markdown in H.
Qed.

(** X11. After a successful fetch whose abstract box is not on the page
    already, the box is shown and is followed by the warning
    "Could not analyze words in abstract." exactly when there is no term;
    with at least one term the handler shows, for each distinct lower-cased
    term, its lines, and everything behind the abstract box is markdown. *)
Theorem warning_iff_no_terms {World Response : Type}
    (ext : externals World Response) (words : list str) (pubmed_id : str)
    (s : session World) (r : option str) (w' : World) :
  get_pubmed_abstract ext pubmed_id (world s) = (inr r, w') ->
  is_success r = true ->
  text_area_shown (lit "Abstract") (text_of r) 200 (screen s) = false ->
  exists rest,
    show_article ext words pubmed_id s
    = (inr tt,
       Session w'
         (screen s
          ++ St_subheader (lit "PubMed ID: " ++ pubmed_id)
          :: St_text_area (lit "Abstract") (text_of r) 200 :: rest))
    /\ (words = [] ->
        rest = [St_warning (lit "Could not analyze words in abstract.")])
    /\ (words <> [] ->
        (exists d,
            analyze_words_in_abstract r words = Some d
            /\ d <> [] /\ rest = flat_map word_calls d)
        /\ forall c, In c rest -> exists b, c = St_markdown b).
Proof.
  intros Hfetch Hok Hfresh.
  exists (analysis_calls (analyze_words_in_abstract r words)).
  split.
  { rewrite (show_article_run ext words pubmed_id s r w' Hfetch).
    unfold article_calls. now rewrite Hok, Hfresh. }
  apply is_success_iff in Hok. destruct Hok as (a & -> & Hne & _).
  rewrite (analyze_nonempty a words Hne). split.
  - now intros ->.
  - intros Hwords. destruct words as [|t words]; [congruence|].
    pose proof (fold_analyze_lookup a (t :: words) t (or_introl eq_refl) [])
      as Hlook.
    destruct (fold_left (analyze_word (lower a) (re_split a))
                        (t :: words) []) as [|item d] eqn:E;
      [discriminate Hlook|].
    split.
    + exists (item :: d). repeat split. discriminate.
    + intros c Hc. now apply word_calls_markdown in Hc.
Qed.

Lemma warning_iff_no_terms_witness :
  exists rest,
    show_article (one_article page_with_both) [] (lit "12345") (Session [] [])
    = (inr tt,
       Session [article_url (lit "12345")]
         ([] ++ St_subheader (lit "PubMed ID: " ++ lit "12345")
          :: St_text_area (lit "Abstract")
                          (text_of (Some (lit "From the section."))) 200
          :: rest))
    /\ (@nil str = [] ->
        rest = [St_warning (lit "Could not analyze words in abstract.")])
    /\ (@nil str <> [] ->
        (exists d,
            analyze_words_in_abstract (Some (lit "From the section.")) []
            = Some d
            /\ d <> [] /\ rest = flat_map word_calls d)
        /\ forall c, In c rest -> exists b, c = St_markdown b).
Proof.
  apply (warning_iff_no_terms (one_article page_with_both) [] (lit "12345")
                              (Session [] [])).
  - reflexivity.
  - reflexivity.
  - reflexivity.
Defined.

Lemma stub_fetch_log (site : str -> option response)
    (parse : str -> option node) (pubmed_id : str) (log : list str) :
  snd (get_pubmed_abstract (stub site parse) pubmed_id log)
  = log ++ [article_url pubmed_id].
Proof.
  rewrite get_pubmed_abstract_unfold.
  unfold fetch_body, bind, get_random_user_agent, stub, ret, raise.
  cbn [UserAgent_random requests_get raise_for_status response_text
       BeautifulSoup].
  destruct (site (article_url pubmed_id)) as [resp|]; [|reflexivity].
  destruct ((400 <=? status_code resp) && (status_code resp <? 600));
    [reflexivity|].
  now destruct (parse (text resp)).
Qed.

Lemma subheaders_article_calls (words : list str) (pubmed_id : str)
    (r : option str) :
  subheaders (article_calls words pubmed_id r)
  = [lit "PubMed ID: " ++ pubmed_id].
Proof.
  destruct (article_calls_block words pubmed_id r) as (rest & -> & Hsub & _).
  change (subheaders (St_subheader (lit "PubMed ID: " ++ pubmed_id) :: rest))
    with ((lit "PubMed ID: " ++ pubmed_id) :: subheaders rest).
  now rewrite (subheaders_none rest Hsub).
Qed.

Lemma requests_follow_headers (site : str -> option response)
    (parse : str -> option node) (words : list str)
    (pubmed_ids : list str) :
  forall s : session (list str),
    exists m,
      m <= length pubmed_ids
      /\ world (snd (for_each pubmed_ids
                              (show_article (stub site parse) words) s))
         = world s ++ map article_url (firstn m pubmed_ids)
      /\ subheaders
           (screen (snd (for_each pubmed_ids
                                  (show_article (stub site parse) words) s)))
         = subheaders (screen s)
           ++ map (fun pubmed_id => lit "PubMed ID: " ++ pubmed_id)
                  (firstn m pubmed_ids)
      /\ (fst (for_each pubmed_ids (show_article (stub site parse) words) s)
          = inr tt -> m = length pubmed_ids).
Proof.
  induction pubmed_ids as [|pubmed_id rest IH]; intros s.
  - exists 0. simpl. rewrite !app_nil_r. auto.
  - destruct (get_pubmed_abstract_returns (stub site parse) pubmed_id
                                          (world s)) as (r & w' & Hfetch).
    pose proof (stub_fetch_log site parse pubmed_id (world s)) as Hlog.
    rewrite Hfetch in Hlog. cbn [snd] in Hlog. subst w'.
    pose proof (show_article_run (stub site parse) words pubmed_id s r _
                                 Hfetch) as Hrun.
    assert (Hstep :
              for_each (pubmed_id :: rest)
                       (show_article (stub site parse) words) s
              = match show_article (stub site parse) words pubmed_id s with
                | (inr _, s1) =>
                  for_each rest (show_article (stub site parse) words) s1
                | (inl e, s1) => (inl e, s1)
                end) by reflexivity.
    rewrite Hstep, Hrun. clear Hstep Hrun.
    destruct (is_success r
              && text_area_shown (lit "Abstract") (text_of r) 200 (screen s)).
    + exists 1. cbn [fst snd world screen firstn map length].
      split; [lia|]. split; [reflexivity|].
      split; [apply subheaders_app | discriminate].
    + destruct (IH (Session (world s ++ [article_url pubmed_id])
                            (screen s ++ article_calls words pubmed_id r)))
        as (m & Hm & Hworld & Hheads & Hdone).
      exists (S m). cbn [world screen] in Hworld, Hheads.
      split; [simpl; lia|].
      split; [rewrite Hworld; cbn [firstn map]; now rewrite <- app_assoc|].
      split.
      * rewrite Hheads, subheaders_app, subheaders_article_calls.
        cbn [firstn map]. now rewrite <- app_assoc.
      * intros H. simpl. f_equal. now apply Hdone.
Qed.

(** X12. With the recording stand-in for the network, whatever its site and
    its parser answer, the requests of a run of the handler are, in order,
    exactly those for the identifiers whose header is shown, each to
    "https://pubmed.ncbi.nlm.nih.gov/" followed by the identifier and "/":
    one request per identifier reached. The identifiers reached are a front
    part of the list, and all of it when the run ends without an
    exception. *)
Theorem one_request_per_identifier (site : str -> option response)
    (parse : str -> option node) (pubmed_ids_input words_input : str)
    (s : session (list str)) :
  exists m,
    m <= length (parse_pubmed_ids pubmed_ids_input)
    /\ world (snd (on_analyze (stub site parse) pubmed_ids_input
                              words_input s))
       = world s
         ++ map article_url (firstn m (parse_pubmed_ids pubmed_ids_input))
    /\ subheaders
         (screen (snd (on_analyze (stub site parse) pubmed_ids_input
                                  words_input s)))
       = subheaders (screen s)
         ++ map (fun pubmed_id => lit "PubMed ID: " ++ pubmed_id)
                (firstn m (parse_pubmed_ids pubmed_ids_input))
    /\ (fst (on_analyze (stub site parse) pubmed_ids_input words_input s)
        = inr tt -> m = length (parse_pubmed_ids pubmed_ids_input)).
Proof.
  unfold on_analyze. apply requests_follow_headers.
Qed.

Lemma one_request_per_identifier_witness :
  exists m,
    m <= length (parse_pubmed_ids (lit "7" ++ newline ++ lit "12345"))
    /\ m = length (parse_pubmed_ids (lit "7" ++ newline ++ lit "12345")).
Proof.
  destruct (one_request_per_identifier
              (fun url =>
                 if str_eqb url (article_url (lit "12345"))
                 then Some (Response 200 (lit "<html>"))
                 else Some (Response 404 (lit "")))
              (fun _ => Some page_with_both)
              (lit "7" ++ newline ++ lit "12345") (lit "section")
              (Session [] [])) as (m & Hm & _ & _ & Hdone).
  exists m. split; [exact Hm | apply Hdone; reflexivity].
Defined.

(* ===================================================================== *)
(** ** The listed sentences and the count *)
(* ===================================================================== *)

Lemma startswith_app_r (w u v : str) :
  startswith w u = true -> startswith w (u ++ v) = true.
Proof.
  intros H. destruct (startswith_inv _ _ H) as [r ->].
  rewrite <- app_assoc. apply startswith_app.
Qed.

Lemma occurs_at_app_l (w x y : str) (p : nat) :
  occurs_at w x p -> occurs_at w (x ++ y) p.
Proof.
  intros [Hp H]. split; [rewrite length_app; lia|].
  rewrite skipn_app. now apply startswith_app_r.
Qed.

Lemma occurs_at_app_r (w x y : str) (p : nat) :
  occurs_at w y p -> occurs_at w (x ++ y) (length x + p).
Proof.
  intros [Hp H]. split; [rewrite length_app; lia|].
  rewrite skipn_app, skipn_all2 by lia.
  replace (length x + p - length x) with p by lia. exact H.
Qed.

Lemma spaced_shift (w : str) (k : nat) (ps : list nat) :
  forall lo, spaced w lo ps -> spaced w (k + lo) (map (Nat.add k) ps).
Proof.
  induction ps as [|p ps IH]; intros lo H; [exact I|].
  destruct H as [Hp H]. split; [lia|].
  simpl. rewrite <- Nat.add_assoc. now apply IH.
Qed.

Lemma spaced_app (w : str) (m : nat) (ps1 ps2 : list nat) :
  forall lo,
    lo <= m ->
    spaced w lo ps1 ->
    Forall (fun p => p + Nat.max 1 (length w) <= m) ps1 ->
    spaced w m ps2 ->
    spaced w lo (ps1 ++ ps2).
Proof.
  induction ps1 as [|p ps1 IH]; intros lo Hlo H1 Hfit H2.
  - simpl. now apply spaced_weaken with (lo := m).
  - destruct H1 as [Hp H1]. inversion Hfit; subst.
    split; [exact Hp|]. now apply IH.
Qed.

(** Occurrences counted in two parts of a text are counted in the text. *)
Lemma count_app (x y w : str) :
  w <> [] -> count x w + count y w <= count (x ++ y) w.
Proof.
  intros Hne.
  assert (Hw : Nat.max 1 (length w) = length w)
    by (destruct w; [congruence | simpl; lia]).
  destruct (count_is_number_of_occurrences x w)
    as [(ps1 & [Hs1 Ho1] & <-) _].
  destruct (count_is_number_of_occurrences y w)
    as [(ps2 & [Hs2 Ho2] & <-) _].
  destruct (count_is_number_of_occurrences (x ++ y) w) as [_ Hmax].
  rewrite <- (length_map (Nat.add (length x)) ps2), <- length_app.
  apply Hmax. split.
  - apply spaced_app with (m := length x + 0); [lia | exact Hs1 | |].
    + eapply Forall_impl; [|exact Ho1]. intros p Hp.
      apply occurs_at_fits in Hp. lia.
    + now apply spaced_shift.
  - apply Forall_app. split.
    + eapply Forall_impl; [|exact Ho1]. intros p. apply occurs_at_app_l.
    + apply Forall_map. eapply Forall_impl; [|exact Ho2].
      intros p. apply occurs_at_app_r.
Qed.

Lemma sentences_of_length (a : str) (ps : list str) :
  sentences_of a ps -> length ps <= S (length a).
Proof.
  induction 1 as [p Hp|p sep rest ps Hp Hend Hne Hsep Hrest Hs IH];
    [simpl; lia|].
  destruct sep as [|c sep]; [congruence|].
  rewrite !length_app. simpl length. lia.
Qed.

Lemma matching_sentences_counted (w a : str) (ps : list str) :
  sentences_of a ps ->
  length (filter (fun s => contains w (lower s)) ps) <= count (lower a) w.
Proof.
  intros Hs. destruct w as [|c w].
  - simpl count. rewrite lower_length.
    etransitivity; [apply filter_length_le|].
    now apply sentences_of_length.
  - assert (Hne : c :: w <> []) by discriminate.
    induction Hs as [p Hp|p sep rest ps Hp Hend Hsne Hsep Hrest Hs IH].
    + simpl filter. destruct (contains (c :: w) (lower p)) eqn:E;
        [|simpl; lia].
      simpl length. now apply contains_count.
    + rewrite !lower_app.
      pose proof (count_app (lower p) (lower sep ++ lower rest) (c :: w) Hne)
        as H1.
      pose proof (count_app (lower sep) (lower rest) (c :: w) Hne) as H2.
      simpl filter. destruct (contains (c :: w) (lower p)) eqn:E.
      * apply contains_count in E. simpl length. lia.
      * lia.
Qed.

(** X13. For a non-empty abstract and a term of the list, every sentence
    listed for the term is trimmed and is a stretch of the abstract, letter
    for letter in the abstract's own casing; for a trimmed term it contains
    the term when both are lower-cased. There are at most as many listed
    sentences as the count says. *)
Theorem listed_sentences_are_verbatim (abstract : str) (words : list str)
    (t : str) (d : dict) (e : entry) :
  abstract <> [] -> In t words ->
  analyze_words_in_abstract (Some abstract) words = Some d ->
  dict_lookup (lower t) d = Some e ->
  Forall (fun x =>
            strip x = x
            /\ (exists l r, abstract = l ++ x ++ r)
            /\ (strip t = t -> contains (lower t) (lower x) = true))
         (entry_sentences e)
  /\ length (entry_sentences e) <= entry_count e.
Proof.
  intros Hne Hin Hd He.
  destruct (analyze_entry abstract words t Hne Hin) as (d' & Hd' & He').
  rewrite Hd in Hd'. injection Hd' as <-. rewrite He in He'.
  injection He' as ->. simpl. rewrite containing_sentences_filter. split.
  - apply Forall_forall. intros x Hx. apply in_map_iff in Hx.
    destruct Hx as (p & <- & Hp). apply filter_In in Hp.
    destruct Hp as [Hp Hc].
    split; [apply strip_idempotent|]. split.
    + destruct (sentences_of_part _ _ (re_split_sound abstract) _ Hp)
        as (l & r & ->).
      destruct (strip_part p) as (l' & r' & E & _ & _).
      exists (l ++ l'), (r' ++ r). rewrite E at 1.
      now rewrite <- !app_assoc.
    + intros Ht. now rewrite contains_strip.
  - rewrite length_map.
    apply matching_sentences_counted, re_split_sound.
Qed.

Lemma listed_sentences_are_verbatim_witness :
  Forall (fun x =>
            strip x = x
            /\ (exists l r, lit " The Cat. " = l ++ x ++ r)
            /\ (strip (lit "cat") = lit "cat" ->
                contains (lower (lit "cat")) (lower x) = true))
         (entry_sentences (Entry 1 [lit "The Cat."]))
  /\ length (entry_sentences (Entry 1 [lit "The Cat."]))
     <= entry_count (Entry 1 [lit "The Cat."]).
Proof.
  apply (listed_sentences_are_verbatim
           (lit " The Cat. ") [lit "cat"] (lit "cat")
           [(lit "cat", Entry 1 [lit "The Cat."])]).
  - discriminate.
  - simpl. auto.
  - reflexivity.
  - reflexivity.
Defined.

(* ===================================================================== *)
(** ** How a run of the handler ends *)
(* ===================================================================== *)

